(** * cress::Defer — a scope guard (include/cress/defer.hpp)

    The header defines one class template,

      template<class Callable> struct Defer {
        Callable m_callable;
        Defer(Defer const&) = delete;            Defer(Defer&&) noexcept = delete;
        Defer& operator=(Defer const&) = delete; Defer& operator=(Defer&&) noexcept = delete;
        ~Defer() noexcept { m_callable(); }
        Defer() : m_callable() {}
        explicit Defer(Callable callable) : m_callable(std::move(callable)) {}
      };

    and a few macros that declare a guard around a lambda.

    The class has no behaviour of its own apart from its destructor: what it
    does is decided by where C++ runs that destructor.  The development has
    therefore two parts.

    - [Runtime]: the class as Rocq definitions ([Defer], [Defer_ctor],
      [Defer_default], [Defer_dtor]) together with an interpreter for the
      block structure of C++ in which guards live as named automatic
      variables: sequencing, nested blocks, branches, [return], [throw],
      [try]/[catch] and function calls.  Leaving a block destroys its
      automatic objects, last constructed first; a [noexcept] destructor out
      of which an exception escapes calls std::terminate.
    - [Static]: the declarations of the class (which members are deleted,
      explicit, noexcept) and the C++ rules that decide whether a use of the
      class is well-formed.

    What a guard does is read off the state its action leaves behind: a
    counter that the action raises, a sequence to which it appends.  The
    trace of events ([Construct], [Invoke], [Finish]) records the run beside
    it. *)

From Stdlib Require Import List Arith Lia Bool.
From Stdlib Require ZArith String Ascii DecimalString DecimalNat.
Import ListNotations.

Set Implicit Arguments.

(** ** Events

    A run is observed through the events of its guards.  A guard is named by
    the number of guards constructed before it in the run. *)

Inductive event : Type :=
| Construct (id : nat)   (* a constructor of Defer has completed *)
| Invoke (id : nat)      (* ~Defer calls m_callable() *)
| Finish (id : nat).     (* that call has returned *)

Definition event_id (ev : event) : nat :=
  match ev with Construct i | Invoke i | Finish i => i end.

Definition event_eq_dec (a b : event) : {a = b} + {a <> b}.
Proof. decide equality; apply Nat.eq_dec. Defined.

(** Number of occurrences of an event in a trace. *)
Definition occ (ev : event) (t : list event) : nat := count_occ event_eq_dec t ev.

(** How control leaves a statement. *)
Inductive signal (Exn : Type) : Type :=
| SNormal                (* falls through to the next statement *)
| SReturn                (* a return statement is being executed *)
| SThrow (e : Exn).      (* an exception is in flight *)

Arguments SNormal {Exn}.
Arguments SReturn {Exn}.

(** Either control leaves, or the program has been ended by std::terminate. *)
Inductive outcome (Exn : Type) : Type :=
| Exit (sig : signal Exn)
| Abort.

Arguments Abort {Exn}.

Definition is_abort {Exn : Type} (o : outcome Exn) : bool :=
  match o with Abort => true | Exit _ => false end.

Section Runtime.

(** The state the program's code acts on, and the values it throws. *)
Variable State : Type.
Variable Exn : Type.

(** What a call of a callable, or an ordinary statement, can do: return a
    value, throw, or end the program itself (a lambda declared noexcept out of
    which an exception escapes, a call of std::abort).  Each carries the state
    reached. *)
Inductive completion (R : Type) : Type :=
| Done (r : R) (s : State)
| Raised (e : Exn) (s : State)
| Halted (s : State).

Arguments Raised {R}.
Arguments Halted {R}.

(** [Callable C]: the expression [c()] is well-formed for [c : C].  The type of
    its value is [result_type]; nothing requires it to be void. *)
Class Callable (C : Type) : Type := {
  result_type : Type;
  invoke : C -> State -> completion result_type
}.

(** [ValueInit C]: the member initialiser [m_callable()] is well-formed, and
    [value_init] is the value it produces. *)
Class ValueInit (C : Type) : Type := value_init : C.

(** A closure is callable. *)
#[export] Instance closure_Callable (R : Type) : Callable (State -> completion R) := {
  result_type := R;
  invoke := fun f s => f s
}.

(** *** The class *)

(** template<class Callable> struct Defer { Callable m_callable; ... }; *)
Record Defer (C : Type) : Type := mkDefer { m_callable : C }.

(** explicit Defer(Callable callable) : m_callable(std::move(callable)) {}
    A callable is a value here, and moving a value yields that value. *)
Definition Defer_ctor {C : Type} (callable : C) : Defer C :=
  {| m_callable := callable |}.

(** Defer() : m_callable() {} *)
Definition Defer_default {C : Type} `{ValueInit C} : Defer C :=
  {| m_callable := value_init |}.

(** What a destructor call can do: return, or end the program. *)
Inductive dtor_result : Type :=
| Destroyed (s : State)
| Terminate (s : State).

(** ~Defer() noexcept { m_callable(); }
    The value of the call is discarded.  The destructor is noexcept: an
    exception that leaves [m_callable()] calls std::terminate. *)
Definition Defer_dtor {C : Type} `{Callable C} (d : Defer C) (s : State) : dtor_result :=
  match invoke (m_callable d) s with
  | Done _ s' => Destroyed s'
  | Raised _ s' => Terminate s'
  | Halted s' => Terminate s'
  end.

(** *** Blocks and their automatic objects *)

(** A guard alive in a block: the object, its Callable type, and its name in
    the trace. *)
Record guard : Type := mkGuard {
  g_id : nat;
  g_type : Type;
  g_callable : Callable g_type;
  g_obj : Defer g_type
}.

(** The automatic objects of the block being executed, last constructed
    first. *)
Definition frame : Type := list guard.

Record config : Type := mkConfig {
  st : State;
  trace : list event;
  next_id : nat
}.

Definition init (s : State) : config := {| st := s; trace := []; next_id := 0 |}.

(** The names of the guards of a frame, last constructed first. *)
Definition ids (fr : frame) : list nat := map g_id fr.

(** What the trace gains when a guard is destroyed and its action returns. *)
Definition fired (g : guard) : list event := [Invoke (g_id g); Finish (g_id g)].

(** The action of the guard, called in state [x]. *)
Definition action (g : guard) (x : State) : completion (@result_type _ (g_callable g)) :=
  @invoke _ (g_callable g) (m_callable (g_obj g)) x.

(** The action of the guard, whatever the state, returns. *)
Definition never_fails (g : guard) : Prop :=
  forall x, exists r x', action g x = Done r x'.

(** Statements.  [Eff f] is any code that declares no guard. *)
Inductive stmt : Type :=
| Skip
| Seq (a b : stmt)
| Eff (f : State -> completion unit)
| DeclareGuard (C : Type) (HC : Callable C) (callable : C)          (* cress::Defer<C> g(callable); *)
| DeclareDefault (C : Type) (HC : Callable C) (HV : ValueInit C) (* cress::Defer<C> g; *)
| Block (body : stmt)                                          (* { body } *)
| If (cond : State -> bool) (a b : stmt)                       (* if (cond) { a } else { b } *)
| Return                                                       (* return; *)
| Throw (e : Exn)                                              (* throw e; *)
| Try (body : stmt) (handler : Exn -> stmt)                    (* try { body } catch (e) { handler } *)
| Call (body : stmt).                                          (* call of a function with that body *)

(** The construction of a guard has completed: it joins the block's automatic
    objects. *)
Definition construct {C : Type} (HC : Callable C) (d : Defer C) (fr : frame) (c : config)
  : frame * config :=
  ({| g_id := next_id c; g_type := C; g_callable := HC; g_obj := d |} :: fr,
   {| st := st c; trace := trace c ++ [Construct (next_id c)]; next_id := S (next_id c) |}).

(** The lifetime of a guard ends: its destructor runs.  [false]: the
    destructor called std::terminate. *)
Definition destroy (g : guard) (c : config) : config * bool :=
  match @Defer_dtor (g_type g) (g_callable g) (g_obj g) (st c) with
  | Destroyed s' =>
      ({| st := s'; trace := trace c ++ [Invoke (g_id g); Finish (g_id g)];
          next_id := next_id c |}, true)
  | Terminate s' =>
      ({| st := s'; trace := trace c ++ [Invoke (g_id g)]; next_id := next_id c |}, false)
  end.

(** The automatic objects of a block are destroyed in the reverse order of
    their construction. *)
Fixpoint unwind (fr : frame) (c : config) : config * bool :=
  match fr with
  | [] => (c, true)
  | g :: rest =>
      let (c', ok) := destroy g c in
      if ok then unwind rest c' else (c', false)
  end.

(** Control leaves a block, in whichever way: its objects are destroyed and
    the signal goes on unchanged, unless a destructor ended the program. *)
Definition leave_scope (fr : frame) (c : config) (o : outcome Exn) : config * outcome Exn :=
  match o with
  | Abort => (c, Abort)
  | Exit sig =>
      let (c', ok) := unwind fr c in
      (c', if ok then Exit sig else Abort)
  end.

Definition set_st (c : config) (s : State) : config :=
  {| st := s; trace := trace c; next_id := next_id c |}.

(** A function returns to its caller: a return ends there, an exception goes
    on. *)
Definition at_call_boundary (o : outcome Exn) : outcome Exn :=
  match o with
  | Exit SReturn => Exit SNormal
  | _ => o
  end.

(** [exec_body s fr c] executes [s] inside a block whose automatic objects so
    far are [fr]. *)
Fixpoint exec_body (s : stmt) (fr : frame) (c : config) : frame * config * outcome Exn :=
  match s with
  | Skip => (fr, c, Exit SNormal)
  | Seq a b =>
      match exec_body a fr c with
      | (fr1, c1, Exit SNormal) => exec_body b fr1 c1
      | r => r
      end
  | Eff f =>
      match f (st c) with
      | Done _ s' => (fr, set_st c s', Exit SNormal)
      | Raised e s' => (fr, set_st c s', Exit (SThrow e))
      | Halted s' => (fr, set_st c s', Abort)
      end
  | DeclareGuard HC callable =>
      let (fr', c') := construct HC (Defer_ctor callable) fr c in
      (fr', c', Exit SNormal)
  | DeclareDefault HC HV =>
      let (fr', c') := construct HC (@Defer_default _ HV) fr c in
      (fr', c', Exit SNormal)
  | Block body =>
      let '(fr1, c1, o1) := exec_body body [] c in
      let (c2, o2) := leave_scope fr1 c1 o1 in
      (fr, c2, o2)
  | If cond a b =>
      let '(fr1, c1, o1) := exec_body (if cond (st c) then a else b) [] c in
      let (c2, o2) := leave_scope fr1 c1 o1 in
      (fr, c2, o2)
  | Return => (fr, c, Exit SReturn)
  | Throw e => (fr, c, Exit (SThrow e))
  | Try body handler =>
      let '(fr1, c1, o1) := exec_body body [] c in
      match leave_scope fr1 c1 o1 with
      | (c2, Exit (SThrow e)) =>
          let '(fr3, c3, o3) := exec_body (handler e) [] c2 in
          let (c4, o4) := leave_scope fr3 c3 o3 in
          (fr, c4, o4)
      | (c2, o2) => (fr, c2, o2)
      end
  | Call body =>
      let '(fr1, c1, o1) := exec_body body [] c in
      let (c2, o2) := leave_scope fr1 c1 o1 in
      (fr, c2, at_call_boundary o2)
  end.

(** [exec_block body c] executes the block [{ body }]. *)
Definition exec_block (body : stmt) (c : config) : config * outcome Exn :=
  let '(fr1, c1, o1) := exec_body body [] c in
  leave_scope fr1 c1 o1.

(** *** The macros

    The forms that take a block: each of them declares one guard around a
    lambda. *)

(** [&]() noexcept { body }: an exception that leaves the body of a noexcept
    lambda calls std::terminate. *)
Definition noexcept_lambda (body : State -> completion unit) : State -> completion unit :=
  fun s =>
    match body s with
    | Raised _ s' => Halted s'
    | r => r
    end.

(** CRESS_DEFER_BEGIN(name) { body } CRESS_DEFER_END(name);
      auto CRESS_deferfn_name = [&]() noexcept { body };
      ::cress::Defer<decltype(CRESS_deferfn_name)>
        CRESS_defer_name(::std::move(CRESS_deferfn_name)); *)
Definition CRESS_DEFER_BEGIN_END (body : State -> completion unit) : stmt :=
  DeclareGuard (closure_Callable unit) (noexcept_lambda body).

(** CRESS_DEFER_BLOCK({ body }); the same with a name made from the line. *)
Definition CRESS_DEFER_BLOCK (body : State -> completion unit) : stmt :=
  CRESS_DEFER_BEGIN_END body.

(** CRESS_DEFER_BEGIN_CPP17 { body } CRESS_DEFER_END_CPP17;
      auto const CRESS_defer_lineN = ::cress::Defer([&]() noexcept { body }); *)
Definition CRESS_DEFER_BEGIN_END_CPP17 (body : State -> completion unit) : stmt :=
  DeclareGuard (closure_Callable unit) (noexcept_lambda body).

End Runtime.

Arguments Raised {State Exn R}.
Arguments Halted {State Exn R}.
Arguments Done {State Exn R}.
Arguments Skip {State Exn}.
Arguments Return {State Exn}.
Arguments Throw {State} [Exn].
Arguments Eff [State Exn].
Arguments fired {State Exn} g.

(** ** The lifecycle of a guard, read off a trace *)

Inductive guard_state : Type :=
| Armed    (* constructed, action not yet run *)
| Fired.   (* the destructor has called the action *)

(** One event seen by the guard [i]; its state is [None] while it does not
    exist.  The outer [None] of the result: the event is not allowed in that
    state. *)
Definition lifecycle_step (i : nat) (s : option guard_state) (ev : event)
  : option (option guard_state) :=
  if event_id ev =? i then
    match ev, s with
    | Construct _, None => Some (Some Armed)
    | Invoke _, Some Armed => Some (Some Fired)
    | Finish _, Some Fired => Some (Some Fired)
    | _, _ => None
    end
  else Some s.

Fixpoint lifecycle_from (i : nat) (s : option guard_state) (t : list event)
  : option (option guard_state) :=
  match t with
  | [] => Some s
  | ev :: t' =>
      match lifecycle_step i s ev with
      | Some s' => lifecycle_from i s' t'
      | None => None
      end
  end.

Definition lifecycle (i : nat) (t : list event) : option (option guard_state) :=
  lifecycle_from i None t.

(** Every occurrence of [b] in [t] comes after an occurrence of [a]. *)
Definition precedes (a b : event) (t : list event) : Prop :=
  forall p q, t = p ++ b :: q -> In a p.

(** The events of [t] are of guards older than [n]. *)
Definition older (n : nat) (t : list event) : Prop :=
  Forall (fun ev => event_id ev < n) t.

(** The invocations of a trace, in order. *)
Fixpoint invocations (t : list event) : list nat :=
  match t with
  | [] => []
  | Invoke i :: t' => i :: invocations t'
  | _ :: t' => invocations t'
  end.

(** The constructions of a trace, in order. *)
Fixpoint constructions (t : list event) : list nat :=
  match t with
  | [] => []
  | Construct i :: t' => i :: constructions t'
  | _ :: t' => constructions t'
  end.

Definition mem (i : nat) (l : list nat) : bool := existsb (Nat.eqb i) l.

(** The guards among [own], in the order in which [t] constructs them: the
    order of their declarations. *)
Definition declared (own : list nat) (t : list event) : list nat :=
  filter (fun i => mem i own) (constructions t).

(** ** What a run adds to the trace *)

(** The events of [t] are of the guards [lo], ..., [hi - 1]. *)
Definition within (lo hi : nat) (t : list event) : Prop :=
  Forall (fun ev => lo <= event_id ev < hi) t.

(** In every prefix a guard has finished no more often than it was invoked,
    and was invoked no more often than it was constructed. *)
Definition balanced (p : list event) : Prop :=
  forall i, occ (Finish i) p <= occ (Invoke i) p /\ occ (Invoke i) p <= occ (Construct i) p.

Definition ordered (t : list event) : Prop :=
  forall p q, t = p ++ q -> balanced p.

(** [segment lo hi live ab t]: [t] is what a piece of a run adds to the trace
    when it constructs the guards [lo], ..., [hi - 1]; [live] are those of
    them that are still alive at its end (the automatic objects of the block
    being executed), [ab] says whether the program was ended. *)
Record segment (lo hi : nat) (live : list nat) (ab : bool) (t : list event) : Prop := {
  seg_le : lo <= hi;
  seg_within : within lo hi t;
  seg_construct : forall i, lo <= i < hi -> occ (Construct i) t = 1;
  seg_nodup : NoDup live;
  seg_live : forall i, In i live -> lo <= i < hi /\ occ (Invoke i) t = 0;
  seg_done : ab = false -> forall i, lo <= i < hi -> ~ In i live ->
             occ (Invoke i) t = 1 /\ occ (Finish i) t = 1;
  seg_ordered : ordered t;
  seg_declared : declared live t = rev live
}.

(** The trace of a statement executed in a block: the guards it declares in
    that block are alive at its end, those of the blocks it has entered and
    left have fired. *)
Definition body_run {State Exn : Type} (s : stmt State Exn) (fr : frame State Exn)
    (c : config State) : Prop :=
  forall fr' c' o, exec_body s fr c = (fr', c', o) ->
  exists new t, fr' = new ++ fr /\ trace c' = trace c ++ t /\
                segment (next_id c) (next_id c') (ids new) (is_abort o) t.

(** The trace of a block executed to its end. *)
Definition block_run {State Exn : Type} (s : stmt State Exn) (c : config State) : Prop :=
  forall c' o, exec_block s c = (c', o) ->
  exists t, trace c' = trace c ++ t /\
            segment (next_id c) (next_id c') [] (is_abort o) t.

(** The state of guard [i] after [t], from the numbers of its events. *)
Definition state_of_counts (i : nat) (t : list event) : option guard_state :=
  if occ (Invoke i) t =? 1 then Some Fired
  else if occ (Construct i) t =? 1 then Some Armed
  else None.

(** Between two points of a run, [before] and [after], where the guards from
    [lo] on are those constructed in between: the older guards are in the
    state they were in, and each newer one has made allowed transitions only
    and has been invoked at most once. *)
Definition lifecycle_ok (lo : nat) (before after : list event) : Prop :=
  (forall i, i < lo -> lifecycle i after = lifecycle i before) /\
  (forall i, lo <= i ->
     exists l, lifecycle i after = Some l /\ occ (Invoke i) after <= 1).

(** ** What the program sees of an action

    An action is known by what it does to the state.  Two ways of watching:
    a counter in the state, which an action raises by one, and a sequence in
    the state, to which an action appends its label. *)

Section Observation.

Variable State : Type.
Variable Exn : Type.

(** The state a call, or a statement, leaves behind, however it ends. *)
Definition state_of {R : Type} (r : completion State Exn R) : State :=
  match r with
  | Done _ x => x
  | Raised _ x => x
  | Halted x => x
  end.

(** { pre; cress::Defer<C> g(a); post }: a block that declares a guard, with
    what it executes before the declaration and after it. *)
Definition guarded_block {C : Type} (HC : Callable State Exn C) (a : C)
    (pre post : stmt State Exn) : stmt State Exn :=
  Seq pre (Seq (DeclareGuard HC a) post).

(** The callable returns, whatever the state. *)
Definition returns {C : Type} (HC : Callable State Exn C) (a : C) : Prop :=
  forall x, exists r x', invoke a x = Done r x'.

(** Only the actions of guards matter here: other code never ends the
    program by a guard's doing. *)
Fixpoint unfailing (s : stmt State Exn) : Prop :=
  match s with
  | Skip | Return | Throw _ | Eff _ => True
  | Seq a b => unfailing a /\ unfailing b
  | DeclareGuard HC a => returns HC a
  | DeclareDefault HC HV => returns HC (value_init (C:=_))
  | Block b | Call b => unfailing b
  | If _ a b => unfailing a /\ unfailing b
  | Try b h => unfailing b /\ forall e, unfailing (h e)
  end.

Section Counter.

(** How often the action that is watched has run. *)
Variable counter : State -> nat.

(** The callable counts: it returns, and the counter is one more. *)
Definition counts {C : Type} (HC : Callable State Exn C) (a : C) : Prop :=
  forall x, exists r x', invoke a x = Done r x' /\ counter x' = S (counter x).

(** The callable leaves the counter as it is, however it ends. *)
Definition spares {C : Type} (HC : Callable State Exn C) (a : C) : Prop :=
  forall x, counter (state_of (invoke a x)) = counter x.

(** Code that leaves the counter as it is: its statements and the actions
    of the guards it declares. *)
Fixpoint quiet (s : stmt State Exn) : Prop :=
  match s with
  | Skip | Return | Throw _ => True
  | Seq a b => quiet a /\ quiet b
  | Eff f => forall x, counter (state_of (f x)) = counter x
  | DeclareGuard HC a => spares HC a
  | DeclareDefault HC HV => spares HC (value_init (C:=_))
  | Block b | Call b => quiet b
  | If _ a b => quiet a /\ quiet b
  | Try b h => quiet b /\ forall e, quiet (h e)
  end.

(** The guard leaves the counter as it is. *)
Definition quiet_guard (g : guard State Exn) : Prop :=
  forall x, counter (state_of (action g x)) = counter x.

End Counter.

Section Sequence.

(** The labels of the actions that have run, in order. *)
Variable L : Type.
Variable sequence : State -> list L.

(** The callable appends its label: it returns, and the sequence has gained
    [l]. *)
Definition appends {C : Type} (HC : Callable State Exn C) (a : C) (l : L) : Prop :=
  forall x, exists r x', invoke a x = Done r x' /\ sequence x' = sequence x ++ [l].

Definition guard_appends (g : guard State Exn) (l : L) : Prop :=
  forall x, exists r x', action g x = Done r x' /\ sequence x' = sequence x ++ [l].

(** Code in which every guard appends a label and nothing else touches the
    sequence. *)
Fixpoint sequenced (s : stmt State Exn) : Prop :=
  match s with
  | Skip | Return | Throw _ => True
  | Seq a b => sequenced a /\ sequenced b
  | Eff f => forall x, sequence (state_of (f x)) = sequence x
  | DeclareGuard HC a => exists l, appends HC a l
  | DeclareDefault HC HV => exists l, appends HC (value_init (C:=_)) l
  | Block b | Call b => sequenced b
  | If _ a b => sequenced a /\ sequenced b
  | Try b h => sequenced b /\ forall e, sequenced (h e)
  end.

(** [own s l]: a guard declared in the block whose body is [s], in the block
    itself, appends [l]. *)
Fixpoint own (s : stmt State Exn) (l : L) : Prop :=
  match s with
  | Seq a b => own a l \/ own b l
  | DeclareGuard HC a => appends HC a l
  | DeclareDefault HC HV => appends HC (value_init (C:=_)) l
  | _ => False
  end.

(** [inner s l]: a guard declared in a block nested in the block whose body
    is [s], at whatever depth, appends [l].  The branches of an [if], the
    block and the handlers of a [try] and the body of a called function are
    such blocks. *)
Fixpoint inner (s : stmt State Exn) (l : L) : Prop :=
  match s with
  | Seq a b => inner a l \/ inner b l
  | Block b | Call b => own b l \/ inner b l
  | If _ a b => (own a l \/ inner a l) \/ (own b l \/ inner b l)
  | Try b h => (own b l \/ inner b l) \/ exists e, own (h e) l \/ inner (h e) l
  | _ => False
  end.

End Sequence.

End Observation.

(** The state of a guard whose action counts, read off the counter:
    [before] is the counter when the guard was constructed, [now] the
    counter.  [None]: the action has run more than once. *)
Definition guard_state_of (before now : nat) : option guard_state :=
  if now =? before then Some Armed
  else if now =? S before then Some Fired
  else None.

(** ** The class as declared: what the compiler accepts *)

Module Static.

(** The header is written for C++11, C++14 and C++17. *)
Inductive standard : Type := Cpp11 | Cpp14 | Cpp17.

(** The member functions the class declares (lines 48 to 54 of the header). *)
Inductive member : Type :=
| CopyCtor       (* Defer(Defer const&) *)
| MoveCtor       (* Defer(Defer&&) *)
| CopyAssign     (* Defer& operator=(Defer const&) *)
| MoveAssign     (* Defer& operator=(Defer&&) *)
| Dtor           (* ~Defer() *)
| DefaultCtor    (* Defer() *)
| CallableCtor.  (* Defer(Callable) *)

Inductive body : Type :=
| Deleted    (* = delete *)
| Provided.  (* { ... } *)

Record declaration : Type := {
  d_body : body;
  d_explicit : bool;
  d_noexcept : bool
}.

(** The declarations, one line of the header each. *)
Definition Defer_declares (m : member) : declaration :=
  match m with
  | CopyCtor     => {| d_body := Deleted;  d_explicit := false; d_noexcept := false |}
  | MoveCtor     => {| d_body := Deleted;  d_explicit := false; d_noexcept := true  |}
  | CopyAssign   => {| d_body := Deleted;  d_explicit := false; d_noexcept := false |}
  | MoveAssign   => {| d_body := Deleted;  d_explicit := false; d_noexcept := true  |}
  | Dtor         => {| d_body := Provided; d_explicit := false; d_noexcept := true  |}
  | DefaultCtor  => {| d_body := Provided; d_explicit := false; d_noexcept := false |}
  | CallableCtor => {| d_body := Provided; d_explicit := true;  d_noexcept := false |}
  end.

(** A program that refers to a deleted function is ill-formed. *)
Definition usable (m : member) : bool :=
  match d_body (Defer_declares m) with
  | Deleted => false
  | Provided => true
  end.

(** What the template argument [Callable] offers, as far as the class uses
    it. *)
Inductive result : Type :=
| Void       (* the call yields nothing *)
| NonVoid.   (* the call yields a value *)

Record action_type : Type := {
  (* the type of the expression [c()] for [c] of this type, when that
     expression is well-formed *)
  call : option result;
  (* [Callable x(std::move(y))] is well-formed *)
  move_constructible : bool;
  (* [Callable()] is well-formed *)
  default_constructible : bool
}.

(** The action types the specification admits: callable with no argument,
    yielding no result. *)
Definition zero_argument_callable (A : action_type) : bool :=
  match call A with Some _ => true | None => false end.

Definition no_result_callable (A : action_type) : bool :=
  match call A with Some Void => true | _ => false end.

(** Bodies of the members, instantiated at [A]. *)

(** ~Defer() noexcept { m_callable(); } : an expression statement; the call
    must be well-formed, its value of whatever type is discarded. *)
Definition dtor_body_ok (A : action_type) : bool :=
  match call A with Some _ => true | None => false end.

(** explicit Defer(Callable callable) : m_callable(std::move(callable)) {} *)
Definition callable_ctor_body_ok (A : action_type) : bool := move_constructible A.

(** Defer() : m_callable() {} *)
Definition default_ctor_body_ok (A : action_type) : bool := default_constructible A.

(** The category of the expression a guard is initialised or assigned from. *)
Inductive category : Type :=
| Lvalue     (* g *)
| Xvalue     (* std::move(g) *)
| Prvalue.   (* cress::Defer<C>(f) *)

(** The form of an initialisation. *)
Inductive form : Type :=
| Direct       (* T x(a); T(a); static_cast<T>(a) *)
| CopyInit.    (* T x = a; passing a to a parameter of type T; returning a as a T *)

(** What a program does with guards of type [Defer<A>]. *)
Inductive use : Type :=
| GuardDefault                           (* cress::Defer<A> g; *)
| GuardFromCallable (f : form)         (* cress::Defer<A> g(a);  cress::Defer<A> g = a; *)
| InitFromGuard (f : form) (c : category)  (* cress::Defer<A> h(g);  auto h = std::move(g); *)
| AssignFromGuard (c : category).        (* h = g;  h = std::move(g); *)

(** A named guard is an automatic variable: declaring it needs its
    destructor. *)
Definition automatic_ok (A : action_type) : bool :=
  usable Dtor && dtor_body_ok A.

(** The constructor that initialises a guard from an expression of its own
    type.  Since C++17 a prvalue initialises the object directly and no
    constructor is called; before, the move constructor is selected even
    where the move is elided. *)
Definition constructor_from_guard (std : standard) (c : category) : option member :=
  match c with
  | Lvalue => Some CopyCtor
  | Xvalue => Some MoveCtor
  | Prvalue => match std with Cpp17 => None | _ => Some MoveCtor end
  end.

Definition assignment_from_guard (c : category) : member :=
  match c with
  | Lvalue => CopyAssign
  | Xvalue | Prvalue => MoveAssign
  end.

(** Copy-initialisation from a value of another type considers the
    constructors that are not explicit only, and, before C++17, moves the
    converted temporary into the variable. *)
Definition converts (std : standard) (f : form) (m : member) : bool :=
  match f with
  | Direct => usable m
  | CopyInit =>
      usable m && negb (d_explicit (Defer_declares m))
      && match constructor_from_guard std Prvalue with
         | Some mv => usable mv
         | None => true
         end
  end.

(** Is the use well-formed? *)
Definition well_formed (std : standard) (A : action_type) (u : use) : bool :=
  match u with
  | GuardDefault =>
      usable DefaultCtor && default_ctor_body_ok A && automatic_ok A
  | GuardFromCallable f =>
      converts std f CallableCtor && callable_ctor_body_ok A && automatic_ok A
  | InitFromGuard f c =>
      match constructor_from_guard std c with
      | Some m => usable m && automatic_ok A
      | None => automatic_ok A
      end
  | AssignFromGuard c => usable (assignment_from_guard c)
  end.

(** A translation unit is well-formed when each of its uses is. *)
Definition compiles (std : standard) (A : action_type) (prog : list use) : bool :=
  forallb (well_formed std A) prog.

(** The special member a use selects to copy or move a guard, if it selects
    one: the four operations that would give a cleanup a second owner. *)
Definition copies_or_moves (std : standard) (u : use) : option member :=
  match u with
  | InitFromGuard _ c => constructor_from_guard std c
  | AssignFromGuard c => Some (assignment_from_guard c)
  | _ => None
  end.

(** The uses that make a guard out of a callable without naming the class. *)
Definition implicit_conversion (u : use) : bool :=
  match u with
  | GuardFromCallable CopyInit => true
  | _ => false
  end.

End Static.

(** ** Scenarios

    Programs the facts below are tried on. *)

(** *** A counter *)

(** The state is the number of times the action has run; exceptions are
    numbers. *)
Definition bump : nat -> completion nat nat unit := fun n => Done tt (S n).

(** cress::Defer<decltype(bump)> g(bump); *)
Definition counted : stmt nat nat := DeclareGuard (closure_Callable nat nat unit) bump.

(** The guard that [counted] declares when [n] guards have been constructed. *)
Definition counted_guard (n : nat) : guard nat nat :=
  {| g_id := n; g_callable := closure_Callable nat nat unit; g_obj := Defer_ctor bump |}.

(** { Defer g(bump); } *)
Definition falls_through : stmt nat nat := Seq counted Skip.

(** { Defer g(bump); return; bump(); } *)
Definition returns_early : stmt nat nat := Seq counted (Seq Return (Eff bump)).

(** { Defer g(bump); { throw 7; } bump(); } *)
Definition throws : stmt nat nat := Seq counted (Seq (Block (Throw 7)) (Eff bump)).

(** { Defer g0(bump); { Defer g1(bump); { Defer g2(bump); } } } *)
Definition nested : stmt nat nat :=
  Seq counted (Block (Seq counted (Block counted))).

(** The counter of these programs is the state itself. *)
Definition the_counter : nat -> nat := fun n => n.

(** An action that does nothing. *)
Definition idle : nat -> completion nat nat unit := fun n => Done tt n.

(** { Defer g0(idle); Defer g(bump); post } *)
Definition around (post : stmt nat nat) : stmt nat nat :=
  guarded_block (closure_Callable nat nat unit) bump
    (DeclareGuard (closure_Callable nat nat unit) idle) post.

(** *** A cleanup that fails *)

Definition failing : nat -> completion nat nat unit := fun n => Raised 13 n.

(** { Defer g0(failing); Defer g1(bump); throw 7; } *)
Definition fails_in_cleanup : stmt nat nat :=
  Seq (DeclareGuard (closure_Callable nat nat unit) failing) (Seq counted (Throw 7)).

Definition g_failing : guard nat nat :=
  {| g_id := 0; g_callable := closure_Callable nat nat unit; g_obj := Defer_ctor failing |}.

(** *** A flag *)

(** { Defer g(bump); { { throw 7; } } }: the state counts how often the flag
    has been set. *)
Definition flag_scope : stmt nat nat := Seq counted (Block (Block (Throw 7))).

(** *** A shared sequence *)

(** The action of the guard [k]: append [k] to the shared sequence. *)
Definition append_id (Exn : Type) (k : nat) : list nat -> completion (list nat) Exn unit :=
  fun l => Done tt (l ++ [k]).

(** { Defer g1(append 1); Defer g2(append 2); ... } *)
Fixpoint declare_all (Exn : Type) (ks : list nat) : stmt (list nat) Exn :=
  match ks with
  | [] => Skip
  | k :: rest => Seq (DeclareGuard (closure_Callable (list nat) Exn unit) (append_id Exn k))
                     (declare_all Exn rest)
  end.

(** The guards of the frame append, from the top of the frame down, the
    identifiers [ks]. *)
Definition appenders (Exn : Type) (ks : list nat) (fr : frame (list nat) Exn) : Prop :=
  Forall2 (fun k g => forall x, exists r, action g x = Done r (x ++ [k])) ks fr.

(** Blocks nested to any depth, each with a guard declared before the inner
    block and one declared after it:
    { Defer ga(append a); { ... } Defer gb(append b); } *)
Fixpoint tower (Exn : Type) (levels : list (nat * nat)) : stmt (list nat) Exn :=
  match levels with
  | [] => Skip
  | (a, b) :: rest =>
      Seq (DeclareGuard (closure_Callable (list nat) Exn unit) (append_id Exn a))
     (Seq (Block (tower Exn rest))
          (DeclareGuard (closure_Callable (list nat) Exn unit) (append_id Exn b)))
  end.

(** The sequence of these programs is the state itself. *)
Definition the_sequence : list nat -> list nat := fun l => l.

(** The identifiers in the order in which the guards of the tower are to
    fire: the innermost block first, and in each block the guard declared
    last first. *)
Fixpoint tower_fires (levels : list (nat * nat)) : list nat :=
  match levels with
  | [] => []
  | (a, b) :: rest => tower_fires rest ++ [b; a]
  end.

(** { Defer g1(append 1); seq.push_back(0); Defer g2(append 2);
      { Defer inner(append 9); }
      Defer g3(append 3); return; seq.push_back(7); } *)
Definition busy_block : stmt (list nat) nat :=
  Seq (DeclareGuard (closure_Callable (list nat) nat unit) (append_id nat 1))
  (Seq (Eff (append_id nat 0))
  (Seq (DeclareGuard (closure_Callable (list nat) nat unit) (append_id nat 2))
  (Seq (Block (DeclareGuard (closure_Callable (list nat) nat unit) (append_id nat 9)))
  (Seq (DeclareGuard (closure_Callable (list nat) nat unit) (append_id nat 3))
  (Seq Return (Eff (append_id nat 7))))))).

(** *** A guard constructed with no action *)

(** struct Tally { void operator()() const noexcept { ++counter; } };
    A class with a default constructor and a call operator that counts. *)
Inductive Tally : Type := mkTally.

#[export] Instance Tally_Callable : Callable nat nat Tally := {
  result_type := unit;
  invoke := fun _ n => Done tt (S n)
}.

#[export] Instance Tally_ValueInit : ValueInit Tally := mkTally.

(** { cress::Defer<Tally> g; } *)
Definition default_tally : stmt nat nat := DeclareDefault Tally_Callable Tally_ValueInit.

(** *** An action that yields a value *)

(** int answer() { ++counter; return 42; } *)
Definition answer : nat -> completion nat nat nat := fun n => Done 42 (S n).

(** *** Action types *)

Module StaticScenario.
Import Static.

(** A lambda: callable with no argument, yields nothing, can be moved. *)
Definition lambda : action_type :=
  {| call := Some Void; move_constructible := true; default_constructible := false |}.

(** int: not callable. *)
Definition not_callable : action_type :=
  {| call := None; move_constructible := true; default_constructible := true |}.

(** A pointer to int f(): callable with no argument, yields a value; it can
    be moved and value-initialised (to a null pointer). *)
Definition returns_a_value : action_type :=
  {| call := Some NonVoid; move_constructible := true; default_constructible := true |}.

End StaticScenario.

(** ** The macros as text

    What the preprocessor makes of the macros of the header: the identifiers
    they declare, the block [CRESS_DEFER_BLOCK] puts back together from its
    arguments, and the condition under which the C++17 forms exist. *)

Module Names.
Import Stdlib.Strings.String.
Local Open Scope string_scope.

(** An argument of a macro as it is written: text that holds no macro, or
    the macro __LINE__. *)
Inductive arg : Type :=
| Text (s : string)
| LINE.

(** The argument as it stands, unexpanded. *)
Definition spelling (a : arg) : string :=
  match a with
  | Text s => s
  | LINE => "__LINE__"
  end.

(** The argument with its macros expanded, on line [line]: __LINE__ is the
    number of the line in decimal. *)
Definition expanded (line : nat) (a : arg) : string :=
  match a with
  | Text s => s
  | LINE => DecimalString.NilEmpty.string_of_uint (Nat.to_uint line)
  end.

(** #define DETAIL_CRESS_DEFER_CAT_IMPL(a, b) a ## b
    The operands of ## are pasted as they stand. *)
Definition DETAIL_CRESS_DEFER_CAT_IMPL (a b : arg) : string :=
  spelling a ++ spelling b.

(** #define DETAIL_CRESS_DEFER_CAT(a, b) DETAIL_CRESS_DEFER_CAT_IMPL(a, b)
    Here [a] and [b] are no operands of ##: they are expanded before they
    are handed on. *)
Definition DETAIL_CRESS_DEFER_CAT (line : nat) (a b : arg) : string :=
  DETAIL_CRESS_DEFER_CAT_IMPL (Text (expanded line a)) (Text (expanded line b)).

(** #define DETAIL_CRESS_DEFER_LINEGENNAME DETAIL_CRESS_DEFER_CAT(line, __LINE__) *)
Definition DETAIL_CRESS_DEFER_LINEGENNAME (line : nat) : string :=
  DETAIL_CRESS_DEFER_CAT line (Text "line") LINE.

(** DETAIL_CRESS_DEFER_CAT(CRESS_deferfn_, name): the variable that holds the
    lambda. *)
Definition lambda_variable (line : nat) (name : string) : string :=
  DETAIL_CRESS_DEFER_CAT line (Text "CRESS_deferfn_") (Text name).

(** DETAIL_CRESS_DEFER_CAT(CRESS_defer_, name): the guard. *)
Definition guard_variable (line : nat) (name : string) : string :=
  DETAIL_CRESS_DEFER_CAT line (Text "CRESS_defer_") (Text name).

(** A use of one of the macros that make their names from the line, on a line
    of the source. *)
Inductive use : Type :=
| BLOCK (line : nat)                      (* CRESS_DEFER_BLOCK({ }); *)
| CALLABLE_VARIABLE (line : nat)          (* CRESS_DEFER_CALLABLE_VARIABLE(v); *)
| BEGIN_END_CPP17 (line : nat).           (* CRESS_DEFER_BEGIN_CPP17 { } CRESS_DEFER_END_CPP17; *)

(** The variables the expansion of a use declares in the enclosing block. *)
Definition declares (u : use) : list string :=
  match u with
  | BLOCK line =>
      [lambda_variable line (DETAIL_CRESS_DEFER_LINEGENNAME line);
       guard_variable line (DETAIL_CRESS_DEFER_LINEGENNAME line)]
  | CALLABLE_VARIABLE line =>
      [guard_variable line (DETAIL_CRESS_DEFER_LINEGENNAME line)]
  | BEGIN_END_CPP17 line =>
      [guard_variable line (DETAIL_CRESS_DEFER_LINEGENNAME line)]
  end.

(** The variables the macro uses of one block declare.  The block is
    well-formed when none is declared twice. *)
Definition declared_in (block : list use) : list string := flat_map declares block.

(** The name a use hands to the pasting macros. *)
Definition name_of (u : use) : string :=
  match u with
  | BLOCK line | CALLABLE_VARIABLE line | BEGIN_END_CPP17 line =>
      DETAIL_CRESS_DEFER_LINEGENNAME line
  end.

(** The line a use is on. *)
Definition line_of (u : use) : nat :=
  match u with
  | BLOCK line | CALLABLE_VARIABLE line | BEGIN_END_CPP17 line => line
  end.

(** The uses that take their name from the line. *)
Definition line_named (u : use) : option nat :=
  match u with
  | BLOCK line | CALLABLE_VARIABLE line | BEGIN_END_CPP17 line => Some line
  end.

End Names.

Module VaArgs.

(** The tokens that matter to the preprocessor when it reads the arguments of
    a macro: commas and parentheses; every other token is text to it
    (braces too). *)
Inductive token : Type :=
| Comma
| LParen
| RParen
| Other (spelling : Stdlib.Strings.String.string).

(** A token joins the argument being read. *)
Definition push (t : token) (args : list (list token)) : list (list token) :=
  match args with
  | [] => [[t]]
  | a :: rest => (t :: a) :: rest
  end.

(** The arguments of a macro invocation, from the tokens between its
    parentheses: a comma separates two arguments unless it is between inner
    parentheses ([depth] of them are open). *)
Fixpoint arguments (depth : nat) (ts : list token) : list (list token) :=
  match ts with
  | [] => [[]]
  | Comma :: r =>
      if depth =? 0 then [] :: arguments 0 r else push Comma (arguments depth r)
  | LParen :: r => push LParen (arguments (S depth) r)
  | RParen :: r => push RParen (arguments (pred depth) r)
  | Other s :: r => push (Other s) (arguments depth r)
  end.

(** __VA_ARGS__: the trailing arguments with the commas that separate them. *)
Fixpoint VA_ARGS (trailing : list (list token)) : list token :=
  match trailing with
  | [] => []
  | [a] => a
  | a :: rest => a ++ Comma :: VA_ARGS rest
  end.

(** [block __VA_ARGS__]: the first argument, then the trailing ones. *)
Definition rejoined (args : list (list token)) : list token :=
  match args with
  | [] => []
  | block :: trailing => block ++ VA_ARGS trailing
  end.

(** #define CRESS_DEFER_BLOCK(block, ...) ... block __VA_ARGS__ ...
    The body of the lambda the macro writes, from the tokens between the
    parentheses of the invocation. *)
Definition CRESS_DEFER_BLOCK_body (ts : list token) : list token :=
  rejoined (arguments 0 ts).

(** The commas of [ts] outside parentheses. *)
Fixpoint top_level_commas (depth : nat) (ts : list token) : nat :=
  match ts with
  | [] => 0
  | Comma :: r => (if depth =? 0 then 1 else 0) + top_level_commas depth r
  | LParen :: r => top_level_commas (S depth) r
  | RParen :: r => top_level_commas (pred depth) r
  | Other _ :: r => top_level_commas depth r
  end.

(** [ts] without its first comma outside parentheses. *)
Fixpoint without_first_comma (depth : nat) (ts : list token) : list token :=
  match ts with
  | [] => []
  | Comma :: r => if depth =? 0 then r else Comma :: without_first_comma depth r
  | LParen :: r => LParen :: without_first_comma (S depth) r
  | RParen :: r => RParen :: without_first_comma (pred depth) r
  | Other s :: r => Other s :: without_first_comma depth r
  end.

End VaArgs.

Module VaArgsScenario.
Import Stdlib.Strings.String VaArgs.
Local Open Scope string_scope.

(** { delete p; f(a, b); } *)
Definition with_call : list token :=
  [Other "{"; Other "delete"; Other "p"; Other ";"; Other "f"; LParen; Other "a"; Comma;
   Other "b"; RParen; Other ";"; Other "}"].

(** { int a = 1, b = 2; } *)
Definition with_declarators : list token :=
  [Other "{"; Other "int"; Other "a"; Other "="; Other "1"; Comma; Other "b"; Other "=";
   Other "2"; Other ";"; Other "}"].

(** { int a = 1 b = 2; } *)
Definition with_declarators_comma_lost : list token :=
  [Other "{"; Other "int"; Other "a"; Other "="; Other "1"; Other "b"; Other "=";
   Other "2"; Other ";"; Other "}"].

End VaArgsScenario.

Module Cpp17.
Import Stdlib.ZArith.ZArith.
Local Open Scope Z_scope.

(** The condition of #if is evaluated in intmax_t, which has 64 bits: the
    value of a macro that takes part in it is an integer of that type. *)
Definition fits (v : Z) : bool := (- 2 ^ 63 <=? v) && (v <? 2 ^ 63).

Record intmax : Type := literal {
  number : Z;
  number_fits : fits number = true
}.

(** A macro of the compiler: its value, or none when it is not defined.  In
    the condition of #if an identifier that is no macro counts as 0. *)
Definition value (m : option intmax) : Z :=
  match m with Some v => number v | None => 0 end.

Definition defined (m : option intmax) : bool :=
  match m with Some _ => true | None => false end.

(** #if ((__cplusplus >= 201703L) || (defined(_MSVC_LANG) &&
         (_MSVC_LANG >= 201703L) && (_MSC_VER >= 1913)))
    #define DETAIL_CRESS_DEFER_HAS_CPP17 1   #else ... 0
    The condition compares and does no arithmetic: on integers that fit it
    is what the preprocessor computes. *)
Definition DETAIL_CRESS_DEFER_HAS_CPP17 (cplusplus : intmax) (MSVC_LANG MSC_VER : option intmax)
  : bool :=
  (number cplusplus >=? 201703)
  || (defined MSVC_LANG && (value MSVC_LANG >=? 201703) && (value MSC_VER >=? 1913)).

(** #if DETAIL_CRESS_DEFER_HAS_CPP17: CRESS_DEFER_BEGIN_CPP17 and
    CRESS_DEFER_END_CPP17 are defined. *)
Definition cpp17_forms_defined (cplusplus : intmax) (MSVC_LANG MSC_VER : option intmax) : bool :=
  DETAIL_CRESS_DEFER_HAS_CPP17 cplusplus MSVC_LANG MSC_VER.

(** __cplusplus of a compiler that reports the standard it compiles. *)
Definition cplusplus_of (std : Static.standard) : intmax :=
  match std with
  | Static.Cpp11 => literal 201103 eq_refl
  | Static.Cpp14 => literal 201402 eq_refl
  | Static.Cpp17 => literal 201703 eq_refl
  end.

(** auto const CRESS_defer_lineN = ::cress::Defer([&]() noexcept { ... });
    what the C++17 form asks of the compiler: a guard made from the lambda,
    and a variable initialised from that prvalue. *)
Definition cpp17_form : list Static.use :=
  [Static.GuardFromCallable Static.Direct; Static.InitFromGuard Static.CopyInit Static.Prvalue].

(** A macro of the compiler is at least what it was. *)
Definition not_lowered (old new : option intmax) : Prop :=
  match old, new with
  | None, _ => True
  | Some a, Some b => number a <= number b
  | Some a, None => number a <= 0
  end.

(** Values compilers give: Visual C++ reports __cplusplus as 199711 unless
    told otherwise. *)
Definition cplusplus_msvc : intmax := literal 199711 eq_refl.
Definition msvc_lang_17 : intmax := literal 201703 eq_refl.
Definition msvc_lang_20 : intmax := literal 202002 eq_refl.
Definition msc_ver_1913 : intmax := literal 1913 eq_refl.
Definition msc_ver_1930 : intmax := literal 1930 eq_refl.

End Cpp17.

(** * Facts *)

(** ** Facts about traces *)

Lemma occ_app (ev : event) (t u : list event) : occ ev (t ++ u) = occ ev t + occ ev u.
Proof. unfold occ. apply count_occ_app. Qed.

Lemma occ_nil (ev : event) : occ ev [] = 0.
Proof. reflexivity. Qed.

Lemma occ_one (ev x : event) : occ ev [x] = if event_eq_dec x ev then 1 else 0.
Proof. unfold occ. simpl. destruct (event_eq_dec x ev); reflexivity. Qed.

Lemma occ_one_same (ev : event) : occ ev [ev] = 1.
Proof. rewrite occ_one. destruct (event_eq_dec ev ev); congruence. Qed.

Lemma occ_one_other (ev x : event) : x <> ev -> occ ev [x] = 0.
Proof. intros H. rewrite occ_one. destruct (event_eq_dec x ev); congruence. Qed.

Lemma occ_pos_In (ev : event) (t : list event) : 0 < occ ev t <-> In ev t.
Proof. unfold occ. split; intros H; apply (count_occ_In event_eq_dec); exact H. Qed.

Lemma occ_zero_not_In (ev : event) (t : list event) : occ ev t = 0 <-> ~ In ev t.
Proof. unfold occ. split; intros H; apply (count_occ_not_In event_eq_dec); exact H. Qed.

Lemma within_occ (lo hi : nat) (t : list event) (ev : event) :
  within lo hi t -> ~ (lo <= event_id ev < hi) -> occ ev t = 0.
Proof.
  intros W Hout. apply occ_zero_not_In. intros Hin.
  unfold within in W. rewrite Forall_forall in W. apply Hout, W, Hin.
Qed.

Lemma within_app (lo hi : nat) (t u : list event) :
  within lo hi t -> within lo hi u -> within lo hi (t ++ u).
Proof. unfold within. intros. apply Forall_app; split; assumption. Qed.

Lemma within_weaken (lo hi lo' hi' : nat) (t : list event) :
  lo' <= lo -> hi <= hi' -> within lo hi t -> within lo' hi' t.
Proof.
  unfold within. intros Hlo Hhi W. eapply Forall_impl; [| exact W].
  simpl. intros ev H. lia.
Qed.

Lemma older_occ (n : nat) (t : list event) (ev : event) :
  older n t -> n <= event_id ev -> occ ev t = 0.
Proof.
  intros W Hout. apply occ_zero_not_In. intros Hin.
  unfold older in W. rewrite Forall_forall in W. apply W in Hin. lia.
Qed.

Lemma ordered_nil : ordered [].
Proof.
  intros p q H. symmetry in H. apply app_eq_nil in H. destruct H as [-> _].
  intros i. rewrite !occ_nil. lia.
Qed.

Lemma ordered_balanced (t : list event) : ordered t -> balanced t.
Proof. intros H. apply (H t []). now rewrite app_nil_r. Qed.

Lemma ordered_prefix (t u : list event) : ordered (t ++ u) -> ordered t.
Proof.
  intros H p q E. apply (H p (q ++ u)). rewrite E. now rewrite app_assoc.
Qed.

Lemma ordered_snoc (t : list event) (ev : event) :
  ordered t -> balanced (t ++ [ev]) -> ordered (t ++ [ev]).
Proof.
  intros Ht Hb p q E.
  destruct q as [| x q'] using rev_ind.
  - rewrite app_nil_r in E. subst p. exact Hb.
  - clear IHq'. rewrite app_assoc in E. apply app_inj_tail in E. destruct E as [E _].
    apply (Ht p q'). exact E.
Qed.

Lemma balanced_app (t u : list event) : balanced t -> balanced u -> balanced (t ++ u).
Proof.
  intros Ht Hu i. destruct (Ht i), (Hu i). rewrite !occ_app. lia.
Qed.

Lemma ordered_app (t u : list event) : ordered t -> ordered u -> ordered (t ++ u).
Proof.
  intros Ht. induction u as [| x u' IH] using rev_ind; intros Hu.
  - now rewrite app_nil_r.
  - rewrite app_assoc. apply ordered_snoc.
    + apply IH. eapply ordered_prefix. exact Hu.
    + rewrite <- app_assoc. apply balanced_app; apply ordered_balanced; assumption.
Qed.

Lemma ordered_one_construct (i : nat) : ordered [Construct i].
Proof.
  change [Construct i] with ([] ++ [Construct i]). apply ordered_snoc.
  - apply ordered_nil.
  - intros j. cbn [app]. rewrite !occ_one.
    destruct (event_eq_dec (Construct i) (Finish j)); [discriminate |].
    destruct (event_eq_dec (Construct i) (Invoke j)); [discriminate |].
    lia.
Qed.

Lemma precedes_later (a b : event) (t u : list event) :
  In a t -> ~ In b t -> precedes a b (t ++ u).
Proof.
  intros Ha Hb p q E.
  apply app_eq_app in E. destruct E as [l [[E1 E2] | [E1 E2]]].
  - destruct l as [| x l'].
    + rewrite app_nil_r in E1. now subst p.
    + simpl in E2. injection E2 as <- _. exfalso. apply Hb. rewrite E1.
      apply in_or_app. right. now left.
  - rewrite E1. apply in_or_app. now left.
Qed.

Lemma occ_cons (ev x : event) (t : list event) :
  occ ev (x :: t) = (if event_eq_dec x ev then 1 else 0) + occ ev t.
Proof. unfold occ. simpl. destruct (event_eq_dec x ev); reflexivity. Qed.

(** Counting in a trace that ends in a few known events. *)
Ltac count_events :=
  rewrite ?occ_app, ?occ_cons, ?occ_nil;
  repeat match goal with
         | |- context [event_eq_dec ?a ?b] =>
             destruct (event_eq_dec a b) as [?E | ?E];
             [ try discriminate; try (injection E as E; try subst) | ]
         end;
  try congruence; try lia.

Lemma constructions_app (t u : list event) :
  constructions (t ++ u) = constructions t ++ constructions u.
Proof.
  induction t as [| [i | i | i] t IH]; simpl; [reflexivity | now rewrite IH | exact IH | exact IH].
Qed.

Lemma invocations_app (t u : list event) :
  invocations (t ++ u) = invocations t ++ invocations u.
Proof.
  induction t as [| [i | i | i] t IH]; simpl; [reflexivity | exact IH | now rewrite IH | exact IH].
Qed.

Lemma constructions_In (i : nat) (t : list event) :
  In i (constructions t) <-> In (Construct i) t.
Proof.
  induction t as [| [j | j | j] t IH]; simpl.
  - tauto.
  - rewrite IH. split; intros [H | H]; auto; left; congruence.
  - rewrite IH. split; [auto | intros [H | H]; [discriminate | exact H]].
  - rewrite IH. split; [auto | intros [H | H]; [discriminate | exact H]].
Qed.

Lemma mem_In (i : nat) (l : list nat) : mem i l = true <-> In i l.
Proof.
  unfold mem. rewrite existsb_exists. split.
  - intros [j [Hj E]]. apply Nat.eqb_eq in E. now subst.
  - intros H. exists i. split; [exact H | apply Nat.eqb_refl].
Qed.

Lemma mem_not_In (i : nat) (l : list nat) : ~ In i l -> mem i l = false.
Proof.
  intros H. destruct (mem i l) eqn:E; [| reflexivity]. apply mem_In in E. contradiction.
Qed.

Lemma declared_app (own : list nat) (t u : list event) :
  declared own (t ++ u) = declared own t ++ declared own u.
Proof. unfold declared. now rewrite constructions_app, filter_app. Qed.

Lemma declared_none (t : list event) : declared [] t = [].
Proof.
  unfold declared. induction (constructions t) as [| i l IH]; simpl; [reflexivity | exact IH].
Qed.

(** Only the members of [own] that [t] constructs matter. *)
Lemma declared_ext (own own' : list nat) (t : list event) :
  (forall i, In (Construct i) t -> (In i own <-> In i own')) ->
  declared own t = declared own' t.
Proof.
  intros H. unfold declared. apply filter_ext_in. intros i Hi.
  apply constructions_In in Hi. specialize (H i Hi).
  destruct (mem i own') eqn:E.
  - apply mem_In. apply H. now apply mem_In.
  - apply mem_not_In. intros Hin. apply H in Hin. apply mem_In in Hin. congruence.
Qed.

Lemma filter_all (f : nat -> bool) (l : list nat) :
  (forall i, In i l -> f i = true) -> filter f l = l.
Proof.
  induction l as [| j l IH]; intros H; simpl; [reflexivity |].
  rewrite (H j (or_introl eq_refl)). f_equal. apply IH. intros i Hi. apply H. now right.
Qed.

(** One guard fewer among those selected. *)
Lemma declared_without (i : nat) (live : list nat) (t : list event) :
  ~ In i live ->
  declared live t = filter (fun j => negb (j =? i)) (declared (i :: live) t).
Proof.
  intros Hn. unfold declared. induction (constructions t) as [| j l IH]; simpl.
  - reflexivity.
  - destruct (Nat.eqb_spec j i) as [-> | Hne]; simpl.
    + rewrite (mem_not_In _ _ Hn). rewrite Nat.eqb_refl. simpl. exact IH.
    + destruct (mem j live) eqn:E; simpl.
      * destruct (Nat.eqb_spec j i); [contradiction |]. simpl. now rewrite IH.
      * exact IH.
Qed.

Lemma segment_empty (lo : nat) (ab : bool) : segment lo lo [] ab [].
Proof.
  constructor; try (intros; lia).
  - constructor.
  - constructor.
  - intros i [].
  - apply ordered_nil.
  - reflexivity.
Qed.

Lemma segment_construct (lo : nat) : segment lo (S lo) [lo] false [Construct lo].
Proof.
  constructor.
  - lia.
  - constructor; [simpl; lia | constructor].
  - intros i Hi. assert (i = lo) by lia. subst. apply occ_one_same.
  - constructor; [intros [] | constructor].
  - intros i [<- | []]. split; [lia |]. count_events.
  - intros _ i Hi Hn. exfalso. apply Hn. left. lia.
  - apply ordered_one_construct.
  - unfold declared, mem. simpl. rewrite Nat.eqb_refl. reflexivity.
Qed.

Lemma segment_app (lo mid hi : nat) (l1 l2 : list nat) (ab : bool) (t1 t2 : list event) :
  segment lo mid l1 false t1 -> segment mid hi l2 ab t2 ->
  segment lo hi (l2 ++ l1) ab (t1 ++ t2).
Proof.
  intros [le1 w1 c1 n1 v1 d1 o1 e1] [le2 w2 c2 n2 v2 d2 o2 e2].
  constructor.
  - lia.
  - apply within_app; [apply (within_weaken (lo:=lo) (hi:=mid)) | apply (within_weaken (lo:=mid) (hi:=hi))];
      auto; lia.
  - intros i Hi. rewrite occ_app. destruct (Nat.lt_ge_cases i mid) as [Hlt | Hge].
    + rewrite c1 by lia. rewrite (within_occ (Construct i) w2) by (simpl; lia). lia.
    + rewrite c2 by lia. rewrite (within_occ (Construct i) w1) by (simpl; lia). lia.
  - apply NoDup_app; auto.
    intros a H2 H1. apply v2 in H2. apply v1 in H1. lia.
  - intros i Hi. rewrite occ_app. apply in_app_or in Hi. destruct Hi as [Hi | Hi].
    + destruct (v2 i Hi) as [R Z]. split; [lia |].
      rewrite Z. rewrite (within_occ (Invoke i) w1) by (simpl; lia). lia.
    + destruct (v1 i Hi) as [R Z]. split; [lia |].
      rewrite Z. rewrite (within_occ (Invoke i) w2) by (simpl; lia). lia.
  - intros Hab i Hi Hn. rewrite !occ_app.
    assert (N1 : ~ In i l1) by (intros H; apply Hn, in_or_app; now right).
    assert (N2 : ~ In i l2) by (intros H; apply Hn, in_or_app; now left).
    destruct (Nat.lt_ge_cases i mid) as [Hlt | Hge].
    + destruct (d1 eq_refl i) as [A B]; [lia | exact N1 |].
      rewrite A, B.
      rewrite (within_occ (Invoke i) w2), (within_occ (Finish i) w2) by (simpl; lia). lia.
    + destruct (d2 Hab i) as [A B]; [lia | exact N2 |].
      rewrite A, B.
      rewrite (within_occ (Invoke i) w1), (within_occ (Finish i) w1) by (simpl; lia). lia.
  - apply ordered_app; assumption.
  - unfold within in w1, w2. rewrite Forall_forall in w1, w2.
    rewrite declared_app, rev_app_distr, <- e1, <- e2. f_equal; apply declared_ext.
    + intros i Hi. specialize (w1 _ Hi). simpl in w1. rewrite in_app_iff. split; [| auto].
      intros [H | H]; [apply v2 in H; lia | exact H].
    + intros i Hi. specialize (w2 _ Hi). simpl in w2. rewrite in_app_iff. split; [| auto].
      intros [H | H]; [exact H | apply v1 in H; lia].
Qed.

(** A live guard is invoked and finishes. *)
Lemma segment_fire (lo hi i : nat) (live : list nat) (t : list event) :
  segment lo hi (i :: live) false t ->
  segment lo hi live false (t ++ [Invoke i; Finish i]).
Proof.
  intros [le w c n v d o e].
  destruct (v i (or_introl eq_refl)) as [Ri Zi].
  assert (Fi : occ (Finish i) t = 0).
  { destruct (ordered_balanced o i). lia. }
  assert (Ci : occ (Construct i) t = 1) by (apply c; exact Ri).
  inversion n as [| ? ? Hni Hnd]; subst.
  constructor.
  - exact le.
  - apply within_app; [exact w |]. repeat constructor; simpl; lia.
  - intros j Hj. rewrite <- (c j Hj). count_events.
  - exact Hnd.
  - intros j Hj. destruct (v j (or_intror Hj)) as [R Z]. split; [exact R |].
    assert (j <> i) by (intros ->; contradiction).
    rewrite occ_app, Z. count_events.
  - intros _ j Hj Hn. destruct (Nat.eq_dec j i) as [-> | Hne].
    + rewrite !occ_app, Zi, Fi. split; count_events.
    + destruct (d eq_refl j Hj) as [A B].
      { intros [H | H]; [congruence | contradiction]. }
      rewrite !occ_app, A, B. split; count_events.
  - change [Invoke i; Finish i] with ([Invoke i] ++ [Finish i]). rewrite app_assoc.
    assert (B1 : balanced (t ++ [Invoke i])).
    { intros j. destruct (ordered_balanced o j) as [X Y].
      destruct (Nat.eq_dec j i) as [-> | Hne].
      - rewrite !occ_app, Zi, Fi, Ci. split; count_events.
      - rewrite !occ_app. split; count_events. }
    apply ordered_snoc; [apply ordered_snoc; assumption |].
    intros j. destruct (ordered_balanced o j) as [X Y].
    destruct (Nat.eq_dec j i) as [-> | Hne].
    + rewrite !occ_app, Zi, Fi, Ci. split; count_events.
    + rewrite !occ_app. split; count_events.
  - rewrite declared_app. change (declared live [Invoke i; Finish i]) with (@nil nat).
    rewrite app_nil_r, (@declared_without i live t Hni), e. simpl. rewrite filter_app. simpl.
    rewrite Nat.eqb_refl. simpl. rewrite app_nil_r. apply filter_all.
    intros j Hj. apply in_rev in Hj. destruct (Nat.eqb_spec j i); [subst; contradiction |].
    reflexivity.
Qed.

(** A live guard is invoked and the program ends in the call. *)
Lemma segment_fire_abort (lo hi i : nat) (live : list nat) (t : list event) :
  segment lo hi (i :: live) false t ->
  segment lo hi [] true (t ++ [Invoke i]).
Proof.
  intros [le w c n v d o e'].
  destruct (v i (or_introl eq_refl)) as [Ri Zi].
  assert (Fi : occ (Finish i) t = 0).
  { destruct (ordered_balanced o i). lia. }
  assert (Ci : occ (Construct i) t = 1) by (apply c; exact Ri).
  constructor.
  - exact le.
  - apply within_app; [exact w |]. repeat constructor; simpl; lia.
  - intros j Hj. rewrite <- (c j Hj). count_events.
  - constructor.
  - intros j [].
  - discriminate.
  - apply ordered_snoc; [exact o |].
    intros j. destruct (ordered_balanced o j) as [X Y].
    destruct (Nat.eq_dec j i) as [-> | Hne].
    + rewrite !occ_app, Zi, Fi, Ci. split; count_events.
    + rewrite !occ_app. split; count_events.
  - apply declared_none.
Qed.

(** Once the program has ended, nobody is alive. *)
Lemma segment_aborted (lo hi : nat) (live : list nat) (t : list event) :
  segment lo hi live true t -> segment lo hi [] true t.
Proof.
  intros [le w c n v d o e]. constructor; auto.
  - constructor.
  - intros i [].
  - discriminate.
  - apply declared_none.
Qed.

(** ** The trace of a run *)

Ltac split3 := split; [| split].

Section RuntimeFacts.

Variable State : Type.
Variable Exn : Type.

Implicit Types (c : config State) (fr : frame State Exn) (s : stmt State Exn).
Implicit Types (o : outcome Exn) (g : guard State Exn).

Lemma destroy_trace g c c' ok :
  destroy g c = (c', ok) ->
  next_id c' = next_id c /\
  trace c' = trace c ++ (if ok then fired g else [Invoke (g_id g)]).
Proof.
  unfold destroy. destruct (Defer_dtor (g_obj g) (st c)); intros E; injection E as <- <-;
    simpl; auto.
Qed.

Lemma unwind_segment fr : forall c c' ok lo t,
  unwind fr c = (c', ok) ->
  segment lo (next_id c) (ids fr) false t ->
  exists u, trace c' = trace c ++ u /\ next_id c' = next_id c /\
            segment lo (next_id c) [] (negb ok) (t ++ u).
Proof.
  induction fr as [| g rest IH]; intros c c' ok lo t E S.
  - simpl in E. injection E as <- <-. exists []. rewrite !app_nil_r. auto.
  - simpl in E. destruct (destroy g c) as [c1 ok1] eqn:D.
    apply destroy_trace in D. destruct D as [N T].
    destruct ok1.
    + apply segment_fire in S. rewrite <- N in S.
      destruct (IH _ _ _ _ _ E S) as [u [Tu [Nu Su]]].
      exists (fired g ++ u). rewrite Tu, T, Nu, N. rewrite <- app_assoc. split; [reflexivity |].
      split; [reflexivity |]. rewrite N in Su. unfold fired in *. rewrite <- app_assoc in Su.
      exact Su.
    + injection E as <- <-. exists [Invoke (g_id g)]. split; [exact T |]. split; [exact N |].
      apply segment_fire_abort in S. exact S.
Qed.

Lemma leave_scope_segment fr c o c' o' lo t :
  leave_scope fr c o = (c', o') ->
  segment lo (next_id c) (ids fr) (is_abort o) t ->
  exists u, trace c' = trace c ++ u /\ next_id c' = next_id c /\
            segment lo (next_id c) [] (is_abort o') (t ++ u).
Proof.
  unfold leave_scope. destruct o as [sig |]; simpl.
  - destruct (unwind fr c) as [c1 ok] eqn:U. intros E S. injection E as <- <-.
    destruct (unwind_segment _ _ U S) as [u [Tu [Nu Su]]].
    exists u. split3; auto. destruct ok; exact Su.
  - intros E S. injection E as <- <-. exists []. rewrite !app_nil_r.
    split3; auto. eapply segment_aborted. exact S.
Qed.

(** Leaving a block keeps the signal, or ends the program. *)
Lemma leave_scope_outcome fr c o c' o' :
  leave_scope fr c o = (c', o') -> o' = o \/ o' = Abort.
Proof.
  unfold leave_scope. destruct o as [sig |].
  - destruct (unwind fr c) as [c1 ok]. intros E. injection E as <- <-.
    destruct ok; auto.
  - intros E. injection E as <- <-. auto.
Qed.

Lemma body_run_block s c : body_run s [] c -> block_run s c.
Proof.
  intros H c' o. unfold exec_block.
  destruct (exec_body s [] c) as [[fr1 c1] o1] eqn:E.
  destruct (H _ _ _ E) as [new [t [F [T S]]]]. rewrite app_nil_r in F. subst fr1.
  intros L. destruct (leave_scope_segment _ _ _ L S) as [u [Tu [Nu Su]]].
  exists (t ++ u). rewrite Tu, T, Nu, <- app_assoc. auto.
Qed.

Lemma exec_body_segment s : forall fr c, body_run s fr c.
Proof.
  induction s as [| a IHa b IHb | f | C HC callable | C HC HV | body IH | cond a IHa b IHb
                  | | e | body IHb handler IHh | body IH]; intros fr c fr' c' o; simpl.
  - (* Skip *)
    intros E. injection E as <- <- <-. exists [], []. rewrite app_nil_r.
    split3; auto. apply segment_empty.
  - (* Seq *)
    destruct (exec_body a fr c) as [[fr1 c1] o1] eqn:Ea.
    destruct (IHa _ _ _ _ _ Ea) as [n1 [t1 [F1 [T1 S1]]]].
    destruct o1 as [[| | e] |]; try (intros E; injection E as <- <- <-; exists n1, t1; auto).
    intros Eb. destruct (IHb _ _ _ _ _ Eb) as [n2 [t2 [F2 [T2 S2]]]].
    exists (n2 ++ n1), (t1 ++ t2). rewrite F2, F1, T2, T1, !app_assoc.
    split3; auto. unfold ids. rewrite map_app. eapply segment_app; eassumption.
  - (* Eff *)
    destruct (f (st c)) as [r s' | e s' | s']; intros E; injection E as <- <- <-;
      exists [], []; rewrite app_nil_r; split3; auto; apply segment_empty.
  - (* DeclareGuard *)
    intros E. injection E as <- <- <-.
    eexists [_], [Construct (next_id c)]. split3; [reflexivity | reflexivity |].
    simpl. apply segment_construct.
  - (* DeclareDefault *)
    intros E. injection E as <- <- <-.
    eexists [_], [Construct (next_id c)]. split3; [reflexivity | reflexivity |].
    simpl. apply segment_construct.
  - (* Block *)
    pose proof (body_run_block (IH [] c)) as B. unfold block_run, exec_block in B.
    destruct (exec_body body [] c) as [[fr1 c1] o1].
    destruct (leave_scope fr1 c1 o1) as [c2 o2].
    intros E. injection E as <- <- <-. destruct (B _ _ eq_refl) as [t [T S]].
    exists [], t. auto.
  - (* If *)
    assert (B : block_run (if cond (st c) then a else b) c).
    { apply body_run_block. destruct (cond (st c)); [apply IHa | apply IHb]. }
    unfold block_run, exec_block in B.
    destruct (exec_body (if cond (st c) then a else b) [] c) as [[fr1 c1] o1].
    destruct (leave_scope fr1 c1 o1) as [c2 o2].
    intros E. injection E as <- <- <-. destruct (B _ _ eq_refl) as [t [T S]].
    exists [], t. auto.
  - (* Return *)
    intros E. injection E as <- <- <-. exists [], []. rewrite app_nil_r.
    split3; auto. apply segment_empty.
  - (* Throw *)
    intros E. injection E as <- <- <-. exists [], []. rewrite app_nil_r.
    split3; auto. apply segment_empty.
  - (* Try *)
    pose proof (body_run_block (IHb [] c)) as B. unfold block_run, exec_block in B.
    destruct (exec_body body [] c) as [[fr1 c1] o1].
    destruct (leave_scope fr1 c1 o1) as [c2 o2].
    destruct (B _ _ eq_refl) as [t [T S]].
    destruct o2 as [[| | e] |]; try (intros E; injection E as <- <- <-; exists [], t; auto).
    pose proof (body_run_block (IHh e [] c2)) as B'. unfold block_run, exec_block in B'.
    destruct (exec_body (handler e) [] c2) as [[fr3 c3] o3].
    destruct (leave_scope fr3 c3 o3) as [c4 o4].
    intros E. injection E as <- <- <-. destruct (B' _ _ eq_refl) as [t' [T' S']].
    exists [], (t ++ t'). rewrite T', T, app_assoc. split3; auto.
    change (ids []) with (ids (@nil (guard State Exn)) ++ ids (@nil (guard State Exn))).
    eapply segment_app; eassumption.
  - (* Call *)
    pose proof (body_run_block (IH [] c)) as B. unfold block_run, exec_block in B.
    destruct (exec_body body [] c) as [[fr1 c1] o1].
    destruct (leave_scope fr1 c1 o1) as [c2 o2].
    intros E. injection E as <- <- <-. destruct (B _ _ eq_refl) as [t [T S]].
    exists [], t. split3; auto.
    destruct o2 as [[| | e] |]; exact S.
Qed.

Lemma exec_block_segment s c : block_run s c.
Proof. apply body_run_block, exec_body_segment. Qed.


Lemma not_In_precedes (a b : event) (t : list event) : ~ In b t -> precedes a b t.
Proof.
  intros H p q E. exfalso. apply H. rewrite E. apply in_or_app. right. now left.
Qed.

Lemma unwind_app (pre post : frame State Exn) c :
  unwind (pre ++ post) c =
  let (c1, ok) := unwind pre c in if ok then unwind post c1 else (c1, false).
Proof.
  revert c. induction pre as [| g pre IH]; intros c; simpl.
  - reflexivity.
  - destruct (destroy g c) as [c1 [|]]; [apply IH | reflexivity].
Qed.

(** Unwinding that completes invokes the guards of the frame in the order of
    the frame: last constructed first. *)
Lemma unwind_trace fr : forall c c',
  unwind fr c = (c', true) -> trace c' = trace c ++ flat_map fired fr.
Proof.
  induction fr as [| g rest IH]; intros c c' E; simpl in *.
  - injection E as <-. now rewrite app_nil_r.
  - destruct (destroy g c) as [c1 ok] eqn:D. apply destroy_trace in D. destruct D as [_ T].
    destruct ok; [| discriminate].
    rewrite (IH _ _ E), T. unfold fired at 1. now rewrite <- app_assoc.
Qed.

Lemma invocations_fired fr : invocations (flat_map fired fr) = ids fr.
Proof. induction fr as [| g rest IH]; simpl; [reflexivity | now rewrite IH]. Qed.

(** The events of a block that is left with a signal.  [t] is what the body
    adds to the trace and [u] what leaving the block adds: a guard declared
    in the block has no invocation in [t] and one in [u], and every guard
    constructed in the block or in a block nested in it has one invocation
    and one return. *)
Lemma trace_fires_exactly_once s c fr1 c1 o1 c' (sig : signal Exn) :
  exec_body s [] c = (fr1, c1, o1) ->
  exec_block s c = (c', Exit sig) ->
  o1 = Exit sig /\
  exists t u,
    trace c1 = trace c ++ t /\ trace c' = trace c1 ++ u /\
    (forall g, In g fr1 -> occ (Invoke (g_id g)) t = 0 /\ occ (Invoke (g_id g)) u = 1) /\
    (forall i, In (Construct i) (t ++ u) ->
               occ (Invoke i) (t ++ u) = 1 /\ occ (Finish i) (t ++ u) = 1).
Proof.
  intros Eb Ek.
  destruct (exec_body_segment s [] c Eb) as [new [t [F [T S]]]].
  rewrite app_nil_r in F. subst new.
  unfold exec_block in Ek. rewrite Eb in Ek.
  assert (O : o1 = Exit sig).
  { destruct (leave_scope_outcome _ _ _ Ek) as [H | H]; [now symmetry | discriminate]. }
  split; [exact O |].
  destruct (leave_scope_segment _ _ _ Ek S) as [u [Tu [Nu Su]]].
  exists t, u. split; [exact T |]. split; [exact Tu |]. simpl in Su. split.
  - intros g Hg. assert (Hi : In (g_id g) (ids fr1)) by (apply in_map; exact Hg).
    destruct (seg_live S _ Hi) as [R Z]. split; [exact Z |].
    destruct (seg_done Su eq_refl (i:=g_id g)) as [A _]; [exact R | intros [] |].
    rewrite occ_app, Z in A. exact A.
  - intros i Hi. apply (seg_done Su eq_refl); [| intros []].
    pose proof (seg_within Su) as W. unfold within in W. rewrite Forall_forall in W.
    apply (W _ Hi).
Qed.

(** *** The lifecycle *)

Lemma lifecycle_from_app (i : nat) (t u : list event) : forall l0,
  lifecycle_from i l0 (t ++ u) =
  match lifecycle_from i l0 t with
  | Some l1 => lifecycle_from i l1 u
  | None => None
  end.
Proof.
  induction t as [| ev t IH]; intros l0; simpl.
  - reflexivity.
  - destruct (lifecycle_step i l0 ev); [apply IH | reflexivity].
Qed.

Lemma lifecycle_counts (t : list event) :
  ordered t -> (forall i, occ (Construct i) t <= 1) ->
  forall i, lifecycle i t = Some (state_of_counts i t).
Proof.
  induction t as [| ev t IH] using rev_ind; intros O C i.
  - reflexivity.
  - assert (IH' : lifecycle i t = Some (state_of_counts i t)).
    { apply IH; [eapply ordered_prefix; exact O |].
      intros j. specialize (C j). rewrite occ_app in C. lia. }
    unfold lifecycle in *. rewrite lifecycle_from_app, IH'. simpl.
    pose proof (ordered_balanced O i) as [B1 B2].
    pose proof (ordered_balanced (@ordered_prefix _ _ O) i) as [B3 B4].
    specialize (C i). unfold state_of_counts, lifecycle_step.
    rewrite !occ_app in *. rewrite !occ_cons, !occ_nil in *.
    destruct (Nat.eqb_spec (event_id ev) i) as [E | E].
    + destruct ev as [j | j | j]; simpl in E; subst j.
      * destruct (event_eq_dec (Construct i) (Construct i)); [| congruence].
        destruct (event_eq_dec (Construct i) (Invoke i)); [discriminate |].
        destruct (event_eq_dec (Construct i) (Finish i)); [discriminate |].
        assert (Z : occ (Construct i) t = 0) by lia.
        assert (Z' : occ (Invoke i) t = 0) by lia.
        rewrite Z, Z'. reflexivity.
      * destruct (event_eq_dec (Invoke i) (Construct i)); [discriminate |].
        destruct (event_eq_dec (Invoke i) (Invoke i)); [| congruence].
        destruct (event_eq_dec (Invoke i) (Finish i)); [discriminate |].
        assert (Z : occ (Construct i) t = 1) by lia.
        assert (Z' : occ (Invoke i) t = 0) by lia.
        rewrite Z, Z'. reflexivity.
      * destruct (event_eq_dec (Finish i) (Construct i)); [discriminate |].
        destruct (event_eq_dec (Finish i) (Invoke i)); [discriminate |].
        destruct (event_eq_dec (Finish i) (Finish i)); [| congruence].
        assert (Z' : occ (Invoke i) t = 1) by lia.
        rewrite Nat.add_0_r, Z'. reflexivity.
    + assert (N1 : ev <> Construct i) by (intros ->; apply E; reflexivity).
      assert (N2 : ev <> Invoke i) by (intros ->; apply E; reflexivity).
      destruct (event_eq_dec ev (Construct i)); [contradiction |].
      destruct (event_eq_dec ev (Invoke i)); [contradiction |].
      rewrite !Nat.add_0_r. reflexivity.
Qed.

Lemma segment_construct_le (lo hi : nat) (live : list nat) (ab : bool) (t : list event) :
  segment lo hi live ab t -> forall i, occ (Construct i) t <= 1.
Proof.
  intros S i. destruct (Nat.le_gt_cases lo i) as [H1 | H1].
  - destruct (Nat.lt_ge_cases i hi) as [H2 | H2].
    + rewrite (seg_construct S); [lia | lia].
    + rewrite (within_occ (Construct i) (seg_within S)); [lia | simpl; lia].
  - rewrite (within_occ (Construct i) (seg_within S)); [lia | simpl; lia].
Qed.

Lemma segment_lifecycle (lo hi : nat) (live : list nat) (ab : bool) (t : list event) :
  segment lo hi live ab t ->
  forall i, lifecycle i t = Some (state_of_counts i t) /\ occ (Invoke i) t <= 1.
Proof.
  intros S i. split.
  - apply lifecycle_counts; [exact (seg_ordered S) | exact (segment_construct_le S)].
  - pose proof (ordered_balanced (seg_ordered S) i) as [_ B].
    pose proof (segment_construct_le S i). lia.
Qed.

Lemma lifecycle_from_skip (i : nat) (t : list event) : forall l0,
  (forall ev, In ev t -> event_id ev <> i) -> lifecycle_from i l0 t = Some l0.
Proof.
  induction t as [| ev t IH]; intros l0 H; simpl.
  - reflexivity.
  - unfold lifecycle_step.
    destruct (Nat.eqb_spec (event_id ev) i) as [E | E].
    + exfalso. apply (H ev); [now left | exact E].
    + apply IH. intros ev' Hin. apply H. now right.
Qed.

(** Guards older than a piece of the run are not touched by it. *)
Lemma lifecycle_older (lo hi i : nat) (base t : list event) :
  within lo hi t -> i < lo -> lifecycle i (base ++ t) = lifecycle i base.
Proof.
  intros W Hi. unfold lifecycle. rewrite lifecycle_from_app.
  destruct (lifecycle_from i None base) as [l |]; [| reflexivity].
  apply lifecycle_from_skip. intros ev Hin.
  unfold within in W. rewrite Forall_forall in W. specialize (W _ Hin). lia.
Qed.

(** Guards of a piece of the run have no past before it. *)
Lemma lifecycle_newer (n i : nat) (base t : list event) :
  older n base -> n <= i -> lifecycle i (base ++ t) = lifecycle i t.
Proof.
  intros W Hi. unfold lifecycle. rewrite lifecycle_from_app.
  rewrite lifecycle_from_skip; [reflexivity |]. intros ev Hin.
  unfold older in W. rewrite Forall_forall in W. specialize (W _ Hin). lia.
Qed.

Lemma segment_lifecycle_ok (lo hi : nat) (live : list nat) (ab : bool) (base t : list event) :
  older lo base -> segment lo hi live ab t -> lifecycle_ok lo base (base ++ t).
Proof.
  intros Ob S. split.
  - intros i Hi. exact (lifecycle_older base (seg_within S) Hi).
  - intros i Hi. destruct (segment_lifecycle S i) as [L I].
    rewrite (lifecycle_newer t Ob Hi), L, occ_app, (older_occ (Invoke i) Ob Hi).
    eauto.
Qed.

(** Fresh names stay fresh. *)
Lemma exec_body_older s fr c fr' c' o :
  older (next_id c) (trace c) -> exec_body s fr c = (fr', c', o) ->
  older (next_id c') (trace c').
Proof.
  intros Ob E. destruct (exec_body_segment s fr c E) as [new [t [_ [T S]]]].
  rewrite T. unfold older in *. apply Forall_app. split.
  - eapply Forall_impl; [| exact Ob]. simpl. intros ev H. pose proof (seg_le S). lia.
  - eapply Forall_impl; [| exact (seg_within S)]. simpl. intros ev H. lia.
Qed.

(** The events of every guard follow the lifecycle.  Take any block, at
    whatever depth it is executed ([c], where the names from [next_id c] on
    are fresh), and any point of its execution ([s] is what has been executed
    of it).  The events of each guard are a construction, then at most one
    invocation; the guards older than the block have no new event; the
    guards of the block itself have no invocation yet.  When the block is
    then left, every guard constructed in it has its invocation. *)
Lemma trace_lifecycle s c fr1 c1 o1 :
  older (next_id c) (trace c) ->
  exec_body s [] c = (fr1, c1, o1) ->
  lifecycle_ok (next_id c) (trace c) (trace c1) /\
  (forall g, In g fr1 -> lifecycle (g_id g) (trace c1) = Some (Some Armed)) /\
  (forall c2 o2, exec_block s c = (c2, o2) ->
     lifecycle_ok (next_id c) (trace c) (trace c2) /\
     (o2 <> Abort ->
      forall i, next_id c <= i -> In (Construct i) (trace c2) ->
                lifecycle i (trace c2) = Some (Some Fired))).
Proof.
  intros Ob Eb.
  destruct (exec_body_segment s [] c Eb) as [new [t [F [T S]]]].
  rewrite app_nil_r in F. subst new. split3.
  - rewrite T. exact (segment_lifecycle_ok Ob S).
  - intros g Hg. assert (Hi : In (g_id g) (ids fr1)) by (apply in_map; exact Hg).
    destruct (seg_live S _ Hi) as [R Z].
    destruct (segment_lifecycle S (g_id g)) as [L _].
    rewrite T, (lifecycle_newer t Ob (proj1 R)), L.
    unfold state_of_counts. rewrite Z, (seg_construct S R). reflexivity.
  - intros c2 o2 Ek. unfold exec_block in Ek. rewrite Eb in Ek.
    destruct (leave_scope_segment _ _ _ Ek S) as [u [Tu [Nu Su]]].
    rewrite T, <- app_assoc in Tu. split.
    + rewrite Tu. exact (segment_lifecycle_ok Ob Su).
    + intros Ho i Hi Hc. rewrite Tu in *.
      rewrite (lifecycle_newer (t ++ u) Ob Hi).
      destruct (segment_lifecycle Su i) as [Li _]. rewrite Li.
      assert (Hab : is_abort o2 = false) by (destruct o2; [reflexivity | congruence]).
      assert (Hc' : In (Construct i) (t ++ u)).
      { apply in_app_or in Hc. destruct Hc as [Hc | Hc]; [| exact Hc].
        exfalso. unfold older in Ob. rewrite Forall_forall in Ob.
        specialize (Ob _ Hc). simpl in Ob. lia. }
      pose proof (seg_within Su) as W. unfold within in W. rewrite Forall_forall in W.
      destruct (seg_done Su Hab (i:=i)) as [A _]; [apply (W _ Hc') | intros [] |].
      unfold state_of_counts. rewrite A. reflexivity.
Qed.

(** The events of nested blocks.  Take any block and any guard [i]
    constructed while it runs that is not among the guards the block holds
    when its body ends.  In what the block adds to the trace, the return of
    that guard's invocation comes before the invocation of any guard [g] the
    block holds. *)
Lemma trace_inner_first s c fr1 c1 o1 c' o' :
  exec_body s [] c = (fr1, c1, o1) ->
  exec_block s c = (c', o') ->
  exists t, trace c' = trace c ++ t /\
    forall g i, In g fr1 -> In (Construct i) t -> ~ In i (ids fr1) ->
      precedes (Finish i) (Invoke (g_id g)) t /\
      (o' <> Abort -> In (Finish i) t /\ In (Invoke (g_id g)) t).
Proof.
  intros Eb Ek.
  destruct (exec_body_segment s [] c Eb) as [new [t [F [T S]]]].
  rewrite app_nil_r in F. subst new.
  unfold exec_block in Ek. rewrite Eb in Ek.
  destruct (leave_scope_segment _ _ _ Ek S) as [u [Tu [Nu Su]]].
  exists (t ++ u). split; [rewrite Tu, T; now rewrite app_assoc |].
  intros g i Hg Hc Hn.
  assert (Hi : In (g_id g) (ids fr1)) by (apply in_map; exact Hg).
  destruct (seg_live S _ Hi) as [R Z].
  assert (Ri : next_id c <= i < next_id c1).
  { pose proof (seg_within Su) as W. unfold within in W. rewrite Forall_forall in W.
    apply (W _ Hc). }
  destruct o1 as [sig1 |].
  - (* the body has left: the inner guard has finished in [t] *)
    destruct (seg_done S eq_refl Ri Hn) as [A B]. split.
    + apply precedes_later.
      * apply occ_pos_In. lia.
      * apply occ_zero_not_In. exact Z.
    + intros Ho. assert (Hab : is_abort o' = false) by (destruct o'; [reflexivity | congruence]).
      split.
      * apply in_or_app. left. apply occ_pos_In. lia.
      * destruct (seg_done Su Hab (i:=g_id g)) as [A' _]; [exact R | intros [] |].
        apply occ_pos_In. lia.
  - (* the program ended in the body: no guard of the block is invoked *)
    simpl in Ek. injection Ek as <- <-. split.
    + apply not_In_precedes. apply occ_zero_not_In.
      assert (U : u = []).
      { rewrite <- (app_nil_r (trace c1)) in Tu at 1. now apply app_inv_head in Tu. }
      subst u. rewrite app_nil_r. exact Z.
    + intros Ho. congruence.
Qed.

(** *** Errors *)

Lemma destroy_raised g c e x' :
  action g (st c) = Raised e x' ->
  destroy g c =
  ({| st := x'; trace := trace c ++ [Invoke (g_id g)]; next_id := next_id c |}, false).
Proof.
  unfold action, destroy, Defer_dtor. intros E. rewrite E. reflexivity.
Qed.

Lemma destroy_done g c r x' :
  action g (st c) = Done r x' ->
  destroy g c =
  ({| st := x'; trace := trace c ++ fired g; next_id := next_id c |}, true).
Proof.
  unfold action, destroy, Defer_dtor. intros E. rewrite E. reflexivity.
Qed.

Lemma unwind_never_fails fr : forall c,
  (forall g, In g fr -> never_fails g) -> exists c', unwind fr c = (c', true).
Proof.
  induction fr as [| g rest IH]; intros c H; simpl.
  - eauto.
  - destruct (H g (or_introl eq_refl) (st c)) as [r [x' E]].
    rewrite (destroy_done _ _ E). apply IH. intros g' Hg'. apply H. now right.
Qed.

(** C8. An error raised by the action of a guard does not leave the guard.
    The block is being left with any signal [sig], an exception in flight
    included; the guards [pre] declared after [g] have been destroyed; the
    action of [g] raises [e].  The block then has no signal for its caller,
    neither [e] nor the one in flight: the program is ended in the destructor
    (std::terminate), the guards declared before [g] are not invoked, and a
    handler around the block does not run. *)
Theorem cleanup_error_is_fatal s c pre g post c1 (sig : signal Exn) c2 e x' :
  exec_body s [] c = (pre ++ g :: post, c1, Exit sig) ->
  unwind pre c1 = (c2, true) ->
  action g (st c2) = Raised e x' ->
  let c' := {| st := x'; trace := trace c2 ++ [Invoke (g_id g)]; next_id := next_id c2 |} in
  exec_block s c = (c', Abort) /\
  forall handler fr, exec_body (Try s handler) fr c = (fr, c', Abort).
Proof.
  intros Eb Eu Ea c'.
  assert (L : leave_scope (pre ++ g :: post) c1 (Exit sig) = (c', Abort)).
  { unfold leave_scope. rewrite unwind_app, Eu. simpl.
    rewrite (destroy_raised _ _ Ea). reflexivity. }
  split.
  - unfold exec_block. rewrite Eb. exact L.
  - intros handler fr. simpl. rewrite Eb, L. reflexivity.
Qed.

(** The events of a block whose body raises [e] and whose guards do not
    fail: the block is left with [e] in flight, and each guard of the block
    has one invocation, on the way out. *)
Lemma trace_unwinding s c fr1 c1 (e : Exn) :
  exec_body s [] c = (fr1, c1, Exit (SThrow e)) ->
  (forall g, In g fr1 -> never_fails g) ->
  exists c',
    exec_block s c = (c', Exit (SThrow e)) /\
    (forall fr, exec_body (Call s) fr c = (fr, c', Exit (SThrow e))) /\
    exists t u,
      trace c1 = trace c ++ t /\ trace c' = trace c1 ++ u /\
      forall g, In g fr1 ->
        occ (Invoke (g_id g)) t = 0 /\ occ (Invoke (g_id g)) u = 1 /\
        occ (Finish (g_id g)) u = 1.
Proof.
  intros Eb Hn.
  destruct (@unwind_never_fails fr1 c1 Hn) as [c' U].
  assert (L : leave_scope fr1 c1 (Exit (SThrow e)) = (c', Exit (SThrow e))).
  { unfold leave_scope. rewrite U. reflexivity. }
  exists c'. split3.
  - unfold exec_block. rewrite Eb. exact L.
  - intros fr. simpl. rewrite Eb, L. reflexivity.
  - destruct (exec_body_segment s [] c Eb) as [new [t [F [T S]]]].
    rewrite app_nil_r in F. subst new.
    destruct (leave_scope_segment _ _ _ L S) as [u [Tu [Nu Su]]].
    exists t, u. split3; auto.
    intros g Hg. assert (Hi : In (g_id g) (ids fr1)) by (apply in_map; exact Hg).
    destruct (seg_live S _ Hi) as [R Z].
    destruct (seg_done Su eq_refl (i:=g_id g)) as [A B]; [exact R | intros [] |].
    pose proof (ordered_balanced (seg_ordered S) (g_id g)) as [P _].
    rewrite occ_app in A, B. split3; lia.
Qed.

(** C6, as the code has it.  A guard constructed with no action holds the
    value-initialised callable of its type, and leaving the block calls that
    value: what is observed is what that call does.  The state is left
    unchanged exactly when the call leaves it unchanged; a call that raises
    ends the program. *)
Theorem default_guard_calls_value_init (C : Type) (HC : Callable State Exn C)
    (HV : ValueInit C) c :
  exec_block (DeclareDefault HC HV) c =
  let n := next_id c in
  match invoke (value_init : C) (st c) with
  | Done _ x' =>
      ({| st := x'; trace := trace c ++ [Construct n; Invoke n; Finish n]; next_id := S n |},
       Exit SNormal)
  | Raised _ x' | Halted x' =>
      ({| st := x'; trace := trace c ++ [Construct n; Invoke n]; next_id := S n |}, Abort)
  end.
Proof.
  unfold exec_block, exec_body, construct, leave_scope, unwind, destroy, Defer_dtor,
    Defer_default. simpl.
  destruct (invoke value_init (st c)) as [r x' | e x' | x']; simpl;
    rewrite <- app_assoc; reflexivity.
Qed.

(** *** The macros *)

(** The three block forms declare the same guard. *)
Lemma macro_forms_agree (body : State -> completion State Exn unit) :
  CRESS_DEFER_BLOCK body = CRESS_DEFER_BEGIN_END body /\
  CRESS_DEFER_BEGIN_END_CPP17 body = CRESS_DEFER_BEGIN_END body.
Proof. split; reflexivity. Qed.

(** The lambda of the macros does not raise: what its body raises ends the
    program inside the lambda. *)
Lemma noexcept_lambda_does_not_raise (body : State -> completion State Exn unit) x e x' :
  noexcept_lambda body x <> Raised e x'.
Proof. unfold noexcept_lambda. destruct (body x); discriminate. Qed.

(** { CRESS_DEFER_BLOCK({ body }); } runs [body] once, when the block is
    left. *)
Lemma macro_guard_runs_block (body : State -> completion State Exn unit) c :
  exec_block (CRESS_DEFER_BLOCK body) c =
  let n := next_id c in
  match body (st c) with
  | Done _ x' =>
      ({| st := x'; trace := trace c ++ [Construct n; Invoke n; Finish n]; next_id := S n |},
       Exit SNormal)
  | Raised _ x' | Halted x' =>
      ({| st := x'; trace := trace c ++ [Construct n; Invoke n]; next_id := S n |}, Abort)
  end.
Proof.
  unfold exec_block, CRESS_DEFER_BLOCK, CRESS_DEFER_BEGIN_END, exec_body, construct,
    leave_scope, unwind, destroy, Defer_dtor, Defer_ctor, noexcept_lambda. simpl.
  destruct (body (st c)) as [r x' | e x' | x']; simpl; rewrite <- app_assoc; reflexivity.
Qed.

End RuntimeFacts.

(** ** The scenarios, run *)

(** The counter is at 1 after each of the three ways out. *)
Example falls_through_counts_one :
  exec_block falls_through (init 0) =
  ({| st := 1; trace := [Construct 0; Invoke 0; Finish 0]; next_id := 1 |}, Exit SNormal).
Proof. reflexivity. Qed.

Example returns_early_counts_one :
  exec_block returns_early (init 0) =
  ({| st := 1; trace := [Construct 0; Invoke 0; Finish 0]; next_id := 1 |}, Exit SReturn).
Proof. reflexivity. Qed.

Example throws_counts_one :
  exec_block throws (init 0) =
  ({| st := 1; trace := [Construct 0; Invoke 0; Finish 0]; next_id := 1 |}, Exit (SThrow 7)).
Proof. reflexivity. Qed.

(** [cleanup_error_is_fatal] with 7 in flight and a cleanup that raises 13:
    neither reaches a caller. *)
Lemma cleanup_error_is_fatal_witness :
  let c' := {| st := 1; trace := [Construct 0; Construct 1; Invoke 1; Finish 1; Invoke 0];
               next_id := 2 |} in
  exec_block fails_in_cleanup (init 0) = (c', Abort) /\
  forall handler fr, exec_body (Try fails_in_cleanup handler) fr (init 0) = (fr, c', Abort).
Proof.
  apply (@cleanup_error_is_fatal nat nat fails_in_cleanup (init 0) [counted_guard 1] g_failing []
           {| st := 0; trace := [Construct 0; Construct 1]; next_id := 2 |} (SThrow 7)
           {| st := 1; trace := [Construct 0; Construct 1; Invoke 1; Finish 1]; next_id := 2 |}
           13 1); reflexivity.
Defined.

(** The flag is set once and 7 goes on. *)
Example flag_set_once_error_kept :
  exec_block flag_scope (init 0) =
  ({| st := 1; trace := [Construct 0; Invoke 0; Finish 0]; next_id := 1 |}, Exit (SThrow 7)).
Proof. reflexivity. Qed.

(** *** The shared sequence *)

Section SharedSequence.

Variable Exn : Type.

(** The declarations leave their guards on the frame, last declared on top. *)
Lemma declare_all_frame (ks : list nat) : forall (fr : frame (list nat) Exn) c,
  exists new c1,
    exec_body (declare_all Exn ks) fr c = (new ++ fr, c1, Exit SNormal) /\
    st c1 = st c /\ appenders (rev ks) new.
Proof.
  induction ks as [| k rest IH]; intros fr c; simpl.
  - exists [], c. split3; [reflexivity | reflexivity | constructor].
  - match goal with |- context [exec_body (declare_all Exn rest) ?f ?d] =>
      destruct (IH f d) as [new [c1 [E [X A]]]] end.
    eexists (new ++ [_]), c1. rewrite E, <- app_assoc. split3; [reflexivity | exact X |].
    apply Forall2_app; [exact A |]. constructor; [| constructor].
    intros x. exists tt. reflexivity.
Qed.

(** Unwinding a frame of appenders appends their identifiers, top first. *)
Lemma unwind_appenders (ks : list nat) : forall (fr : frame (list nat) Exn) c,
  appenders ks fr -> exists c', unwind fr c = (c', true) /\ st c' = st c ++ ks.
Proof.
  induction ks as [| k rest IH]; intros fr c A; inversion A as [| ? g ? fr' Hg A']; subst.
  - exists c. simpl. now rewrite app_nil_r.
  - simpl. destruct (Hg (st c)) as [r Hr]. rewrite (destroy_done _ _ Hr).
    match goal with |- context [unwind fr' ?d] => destruct (IH fr' d A') as [c' [U X]] end.
    exists c'. split; [exact U |]. rewrite X. simpl. now rewrite <- app_assoc.
Qed.

Lemma declare_all_sequence (ks : list nat) (c : config (list nat)) :
  exists c', exec_block (declare_all Exn ks) c = (c', Exit SNormal) /\ st c' = st c ++ rev ks.
Proof.
  unfold exec_block.
  destruct (declare_all_frame ks [] c) as [new [c1 [E [X A]]]].
  rewrite app_nil_r in E. rewrite E.
  destruct (unwind_appenders c1 A) as [c' [U X']].
  exists c'. unfold leave_scope. rewrite U. split; [reflexivity | congruence].
Qed.

End SharedSequence.

(** C3. Sibling guards fire in the reverse of the order of their
    declarations.
    - Guards G1, G2, G3 declared in that order in one block, each appending
      its identifier to a shared sequence when it fires, leave
      [G3; G2; G1]; the events of the run are the three constructions, then
      the invocations of the third, the second and the first guard.
    - Any number of guards declared so leave the reverse of the list of
      their identifiers.
    - In general, for any block, whatever else it executes between the
      declarations (nested blocks with guards of their own included) and in
      whichever way it is left: leaving it invokes the guards of the block,
      all of them, in the reverse of the order in which the body constructed
      them. *)
Theorem siblings_fire_in_reverse_order :
  (forall (Exn : Type) (G1 G2 G3 : nat) (x : list nat),
     exec_block (declare_all Exn [G1; G2; G3]) (init x) =
     ({| st := x ++ [G3; G2; G1];
         trace := [Construct 0; Construct 1; Construct 2;
                   Invoke 2; Finish 2; Invoke 1; Finish 1; Invoke 0; Finish 0];
         next_id := 3 |}, Exit SNormal)) /\
  (forall (Exn : Type) (ks : list nat) (c : config (list nat)),
     exists c', exec_block (declare_all Exn ks) c = (c', Exit SNormal) /\
                st c' = st c ++ rev ks) /\
  (forall (State Exn : Type) (s : stmt State Exn) c fr1 c1 o1 c' (sig : signal Exn),
     exec_body s [] c = (fr1, c1, o1) ->
     exec_block s c = (c', Exit sig) ->
     exists t u,
       trace c1 = trace c ++ t /\ trace c' = trace c1 ++ u /\
       (forall i, In i (declared (ids fr1) t) <-> In i (ids fr1)) /\
       invocations u = rev (declared (ids fr1) t)).
Proof.
  split3.
  - intros Exn G1 G2 G3 x. unfold exec_block. simpl. rewrite <- !app_assoc. reflexivity.
  - intros Exn ks c. apply declare_all_sequence.
  - intros State Exn s c fr1 c1 o1 c' sig Eb Ek.
    destruct (exec_body_segment s [] c Eb) as [new [t [F [T S]]]].
    rewrite app_nil_r in F. subst new.
    unfold exec_block in Ek. rewrite Eb in Ek.
    assert (O : o1 = Exit sig).
    { destruct (leave_scope_outcome _ _ _ Ek) as [H | H]; [now symmetry | discriminate]. }
    subst o1. unfold leave_scope in Ek.
    destruct (unwind fr1 c1) as [c2 ok] eqn:U. destruct ok; [| discriminate].
    injection Ek as <-.
    exists t, (flat_map (@fired State Exn) fr1).
    split; [exact T |]. split; [exact (unwind_trace _ _ U) |].
    rewrite (seg_declared S). split.
    + intros i. symmetry. apply in_rev.
    + now rewrite invocations_fired, rev_involutive.
Qed.

(** The block of the general case: other code between the declarations, a
    nested block with a guard, an early return. *)
Example busy_block_sequence :
  exec_block busy_block (init []) =
  ({| st := [0; 9; 3; 2; 1];
      trace := [Construct 0; Construct 1; Construct 2; Invoke 2; Finish 2; Construct 3;
                Invoke 3; Finish 3; Invoke 1; Finish 1; Invoke 0; Finish 0];
      next_id := 4 |}, Exit SReturn).
Proof. reflexivity. Qed.

(** The general case of [siblings_fire_in_reverse_order] on that block: the
    guards 0, 1, 3 are declared in that order and invoked as 3, 1, 0. *)
Lemma siblings_fire_in_reverse_order_witness :
  exists t u,
    trace (snd (fst (exec_body busy_block [] (init [])))) = [] ++ t /\
    trace (fst (exec_block busy_block (init []))) =
      trace (snd (fst (exec_body busy_block [] (init [])))) ++ u /\
    declared [3; 1; 0] t = [0; 1; 3] /\
    invocations u = [3; 1; 0].
Proof.
  destruct siblings_fire_in_reverse_order as [_ [_ H]].
  destruct (H (list nat) nat busy_block (init []) _ _ _ _ SReturn eq_refl eq_refl)
    as [t [u [T [U [_ I]]]]].
  exists t, u. split; [exact T |]. split; [exact U |].
  simpl in T. subst t. split; [reflexivity |]. exact I.
Defined.

Example three_guards :
  st (fst (exec_block (declare_all nat [1; 2; 3]) (init []))) = [3; 2; 1].
Proof. reflexivity. Qed.

(** C6 as stated fails: the block that declares nothing but a
    default-constructed guard over [Tally] changes the counter. *)
Lemma default_guard_has_side_effect :
  exec_block default_tally (init 0) =
  ({| st := 1; trace := [Construct 0; Invoke 0; Finish 0]; next_id := 1 |}, Exit SNormal) /\
  st (fst (exec_block default_tally (init 0))) <> st (init 0).
Proof. split; [reflexivity | discriminate]. Qed.

(** { cress::Defer<decltype(&answer)> g(&answer); } is accepted, and the value of the
    call is discarded by the destructor. *)
Example result_is_discarded :
  exec_block (DeclareGuard (closure_Callable nat nat nat) answer) (init 0) =
  ({| st := 1; trace := [Construct 0; Invoke 0; Finish 0]; next_id := 1 |}, Exit SNormal).
Proof. reflexivity. Qed.

(** ** What the compiler rejects *)

Module StaticFacts.
Import Static StaticScenario.

Lemma compiles_all (std : standard) (A : action_type) (prog : list use) :
  compiles std A prog = true <-> forall u, In u prog -> well_formed std A u = true.
Proof. unfold compiles. apply forallb_forall. Qed.

Lemma compiles_rejects (std : standard) (A : action_type) (prog : list use) (u : use) :
  In u prog -> well_formed std A u = false -> compiles std A prog = false.
Proof.
  intros Hin Hw. destruct (compiles std A prog) eqn:E; [| reflexivity].
  rewrite compiles_all in E. rewrite (E u Hin) in Hw. discriminate.
Qed.

(** The members a copy or a move selects are the four deleted ones. *)
Lemma copies_or_moves_deleted (std : standard) (u : use) (m : member) :
  copies_or_moves std u = Some m ->
  (m = CopyCtor \/ m = MoveCtor \/ m = CopyAssign \/ m = MoveAssign) /\ usable m = false.
Proof.
  destruct u as [| f | f [| |] | [| |]]; simpl; try discriminate;
    try (destruct std; try discriminate);
    intros E; injection E as <-; split; auto.
Qed.

(** C5. The four operations that copy or move a guard are deleted, and a
    program that uses one of them, for whatever Callable and under whichever
    standard, does not compile. *)
Theorem copy_and_move_are_rejected (std : standard) (A : action_type) (prog : list use)
    (u : use) (m : member) :
  In u prog -> copies_or_moves std u = Some m ->
  compiles std A prog = false /\
  usable CopyCtor = false /\ usable MoveCtor = false /\
  usable CopyAssign = false /\ usable MoveAssign = false /\
  (forall f, copies_or_moves std (InitFromGuard f Lvalue) = Some CopyCtor) /\
  (forall f, copies_or_moves std (InitFromGuard f Xvalue) = Some MoveCtor) /\
  copies_or_moves std (AssignFromGuard Lvalue) = Some CopyAssign /\
  copies_or_moves std (AssignFromGuard Xvalue) = Some MoveAssign.
Proof.
  intros Hin Hm. split.
  - apply (@compiles_rejects std A prog u Hin).
    destruct (@copies_or_moves_deleted std u m Hm) as [_ Hu].
    destruct u as [| f | f c | c]; simpl in *; try discriminate.
    + rewrite Hm, Hu. reflexivity.
    + injection Hm as <-. exact Hu.
  - repeat split.
Qed.

(** C7 as stated fails: an action type whose call yields a value is not a
    no-result callable, and a guard over it is accepted. *)
Lemma value_returning_action_is_accepted :
  no_result_callable returns_a_value = false /\
  well_formed Cpp11 returns_a_value (GuardFromCallable Direct) = true /\
  compiles Cpp17 returns_a_value [GuardFromCallable Direct] = true.
Proof. repeat split. Qed.

(** C7, as the code has it.  A guard over an action type that cannot be
    called with no argument is rejected when it is declared, under each
    standard and in each form of initialisation; among the types that can be
    moved, those accepted in direct initialisation are exactly the ones
    callable with no argument, whatever their call yields. *)
Theorem uncallable_action_is_rejected (std : standard) (A : action_type) (f : form) :
  zero_argument_callable A = false ->
  well_formed std A (GuardFromCallable f) = false /\
  (forall prog, In (GuardFromCallable f) prog -> compiles std A prog = false) /\
  (forall B, move_constructible B = true ->
     well_formed std B (GuardFromCallable Direct) = zero_argument_callable B).
Proof.
  intros H.
  assert (W : well_formed std A (GuardFromCallable f) = false).
  { unfold well_formed, automatic_ok, dtor_body_ok. unfold zero_argument_callable in H.
    destruct (call A); [discriminate |]. rewrite !andb_false_r. reflexivity. }
  split; [exact W |]. split.
  - intros prog Hin. exact (@compiles_rejects std A prog _ Hin W).
  - intros B HB. unfold well_formed, converts, callable_ctor_body_ok, automatic_ok,
      dtor_body_ok, zero_argument_callable. rewrite HB. simpl. destruct (call B); reflexivity.
Qed.

(** C10. The constructor that takes the callable is explicit: a guard is not
    made from a callable by copy-initialisation or by an implicit conversion
    (a callable passed where a guard is expected), for whatever Callable and
    under whichever standard; a program that does so does not compile. *)
Theorem implicit_conversion_is_rejected (std : standard) (A : action_type) (prog : list use)
    (u : use) :
  In u prog -> implicit_conversion u = true ->
  d_explicit (Defer_declares CallableCtor) = true /\
  well_formed std A u = false /\
  compiles std A prog = false.
Proof.
  intros Hin Hu.
  assert (W : well_formed std A u = false).
  { destruct u as [| [|] | f c | c]; simpl in Hu; try discriminate. reflexivity. }
  split; [reflexivity |]. split; [exact W |].
  exact (@compiles_rejects std A prog u Hin W).
Qed.

Lemma copy_and_move_are_rejected_witness :
  compiles Cpp17 lambda [GuardFromCallable Direct; InitFromGuard Direct Xvalue] = false /\
  usable CopyCtor = false /\ usable MoveCtor = false /\
  usable CopyAssign = false /\ usable MoveAssign = false /\
  (forall f, copies_or_moves Cpp17 (InitFromGuard f Lvalue) = Some CopyCtor) /\
  (forall f, copies_or_moves Cpp17 (InitFromGuard f Xvalue) = Some MoveCtor) /\
  copies_or_moves Cpp17 (AssignFromGuard Lvalue) = Some CopyAssign /\
  copies_or_moves Cpp17 (AssignFromGuard Xvalue) = Some MoveAssign.
Proof.
  apply (@copy_and_move_are_rejected Cpp17 lambda
           [GuardFromCallable Direct; InitFromGuard Direct Xvalue]
           (InitFromGuard Direct Xvalue) MoveCtor).
  - right. left. reflexivity.
  - reflexivity.
Defined.

Lemma uncallable_action_is_rejected_witness :
  well_formed Cpp14 not_callable (GuardFromCallable Direct) = false /\
  (forall prog, In (GuardFromCallable Direct) prog -> compiles Cpp14 not_callable prog = false) /\
  (forall B, move_constructible B = true ->
     well_formed Cpp14 B (GuardFromCallable Direct) = zero_argument_callable B).
Proof.
  apply (@uncallable_action_is_rejected Cpp14 not_callable Direct). reflexivity.
Defined.

Lemma implicit_conversion_is_rejected_witness :
  d_explicit (Defer_declares CallableCtor) = true /\
  well_formed Cpp17 lambda (GuardFromCallable CopyInit) = false /\
  compiles Cpp17 lambda [GuardFromCallable CopyInit] = false.
Proof.
  apply (@implicit_conversion_is_rejected Cpp17 lambda [GuardFromCallable CopyInit]
           (GuardFromCallable CopyInit)).
  - left. reflexivity.
  - reflexivity.
Defined.

End StaticFacts.

(** ** A guard and the rest of its block *)

Section Finally.

Variable State : Type.
Variable Exn : Type.

Implicit Types (c : config State) (fr : frame State Exn) (s : stmt State Exn).

(** A statement does not look at the guards that are alive when it runs, and
    leaves them where they are. *)
Lemma exec_body_frame s : forall fr c,
  exec_body s fr c =
  (fst (fst (exec_body s [] c)) ++ fr, snd (fst (exec_body s [] c)), snd (exec_body s [] c)).
Proof.
  induction s as [| a IHa b IHb | f | C HC callable | C HC HV | body IH | cond a IHa b IHb
                  | | e | body IHb handler IHh | body IH]; intros fr c; simpl.
  - reflexivity.
  - rewrite (IHa fr c).
    destruct (exec_body a [] c) as [[n1 c1] o1]. simpl.
    destruct o1 as [[| | e] |]; simpl; try reflexivity.
    rewrite (IHb (n1 ++ fr) c1), (IHb n1 c1).
    destruct (exec_body b [] c1) as [[n2 c2] o2]. simpl. now rewrite app_assoc.
  - destruct (f (st c)); reflexivity.
  - reflexivity.
  - reflexivity.
  - destruct (exec_body body [] c) as [[fr1 c1] o1].
    destruct (leave_scope fr1 c1 o1). reflexivity.
  - destruct (exec_body (if cond (st c) then a else b) [] c) as [[fr1 c1] o1].
    destruct (leave_scope fr1 c1 o1). reflexivity.
  - reflexivity.
  - reflexivity.
  - destruct (exec_body body [] c) as [[fr1 c1] o1].
    destruct (leave_scope fr1 c1 o1) as [c2 [[| | e] |]]; try reflexivity.
    destruct (exec_body (handler e) [] c2) as [[fr3 c3] o3].
    destruct (leave_scope fr3 c3 o3). reflexivity.
  - destruct (exec_body body [] c) as [[fr1 c1] o1].
    destruct (leave_scope fr1 c1 o1). reflexivity.
Qed.

(** Leaving a block whose first declared guard is [g]: the others are
    destroyed, then [g]. *)
Lemma leave_scope_last (new : frame State Exn) (g : guard State Exn) c (o : outcome Exn) :
  leave_scope (new ++ [g]) c o =
  match leave_scope new c o with
  | (c2, Exit sig) => let (c3, ok) := destroy g c2 in (c3, if ok then Exit sig else Abort)
  | (c2, Abort) => (c2, Abort)
  end.
Proof.
  unfold leave_scope. destruct o as [sig |]; [| reflexivity].
  rewrite unwind_app. destruct (unwind new c) as [c2 [|]]; [| reflexivity].
  simpl. destruct (destroy g c2) as [c3 [|]]; reflexivity.
Qed.

(** X1. A guard declared at the head of a block is a "finally" for the rest
    of the block: [{ Defer g(a); rest }] does what [{ rest }] does, the
    guards [rest] declares fired and all, and then calls [a] once on the
    state reached.  When the call returns, the state is the one it leaves and
    the way out of [rest] (fall-through, return, exception) is kept; when the
    call raises, the program is ended.  When [rest] has ended the program,
    [a] is not called. *)
Theorem guard_is_finally (C : Type) (HC : Callable State Exn C) (a : C) (rest : stmt State Exn) c :
  exec_block (Seq (DeclareGuard HC a) rest) c =
  let n := next_id c in
  let c0 := {| st := st c; trace := trace c ++ [Construct n]; next_id := S n |} in
  match exec_block rest c0 with
  | (c2, Exit sig) =>
      match invoke a (st c2) with
      | Done _ x =>
          ({| st := x; trace := trace c2 ++ [Invoke n; Finish n]; next_id := next_id c2 |},
           Exit sig)
      | Raised _ x | Halted x =>
          ({| st := x; trace := trace c2 ++ [Invoke n]; next_id := next_id c2 |}, Abort)
      end
  | (c2, Abort) => (c2, Abort)
  end.
Proof.
  unfold exec_block. simpl. rewrite exec_body_frame.
  match goal with |- context [exec_body rest [] ?d] =>
    destruct (exec_body rest [] d) as [[new c1] o1] end.
  simpl. rewrite leave_scope_last.
  destruct (leave_scope new c1 o1) as [c2 [sig |]]; [| reflexivity].
  unfold destroy, Defer_dtor. simpl.
  destruct (invoke a (st c2)); reflexivity.
Qed.

(** X2. The block macros are a "finally" too, and one that does not throw:
    [{ CRESS_DEFER_BLOCK({ body }); rest }] does what [{ rest }] does and then
    runs [body] once on the state reached, keeping the way out of [rest]; an
    exception that leaves [body] ends the program, as the lambda is noexcept.
    The forms CRESS_DEFER_BEGIN/END and CRESS_DEFER_BEGIN_CPP17/END_CPP17
    declare the same guard. *)
Theorem block_macro_is_finally (body : State -> completion State Exn unit)
    (rest : stmt State Exn) c :
  let n := next_id c in
  let c0 := {| st := st c; trace := trace c ++ [Construct n]; next_id := S n |} in
  let after :=
    match exec_block rest c0 with
    | (c2, Exit sig) =>
        match body (st c2) with
        | Done _ x =>
            ({| st := x; trace := trace c2 ++ [Invoke n; Finish n]; next_id := next_id c2 |},
             Exit sig)
        | Raised _ x | Halted x =>
            ({| st := x; trace := trace c2 ++ [Invoke n]; next_id := next_id c2 |}, Abort)
        end
    | (c2, Abort) => (c2, Abort)
    end in
  exec_block (Seq (CRESS_DEFER_BLOCK body) rest) c = after /\
  exec_block (Seq (CRESS_DEFER_BEGIN_END body) rest) c = after /\
  exec_block (Seq (CRESS_DEFER_BEGIN_END_CPP17 body) rest) c = after.
Proof.
  intros n c0 after.
  assert (E : exec_block (Seq (CRESS_DEFER_BEGIN_END body) rest) c = after).
  { unfold CRESS_DEFER_BEGIN_END, exec_block. simpl. rewrite exec_body_frame.
    subst after. unfold exec_block. fold n. fold c0.
    destruct (exec_body rest [] c0) as [[new c1] o1]. simpl.
    rewrite leave_scope_last. destruct (leave_scope new c1 o1) as [c2 [sig |]]; [| reflexivity].
    unfold destroy, Defer_dtor, noexcept_lambda. simpl.
    destruct (body (st c2)); reflexivity. }
  split; [exact E | split; exact E].
Qed.

End Finally.

(** ** What the actions do to the state *)

Section ObservedFacts.

Variable State : Type.
Variable Exn : Type.

Implicit Types (c : config State) (fr : frame State Exn) (s : stmt State Exn).
Implicit Types (o : outcome Exn) (g : guard State Exn).

(** A nested block is a block. *)
Lemma exec_body_Block s fr c :
  exec_body (Block s) fr c = (fr, fst (exec_block s c), snd (exec_block s c)).
Proof.
  unfold exec_block. simpl. destruct (exec_body s [] c) as [[fr1 c1] o1].
  destruct (leave_scope fr1 c1 o1). reflexivity.
Qed.

Lemma exec_body_Call s fr c :
  exec_body (Call s) fr c =
  (fr, fst (exec_block s c), at_call_boundary (snd (exec_block s c))).
Proof.
  unfold exec_block. simpl. destruct (exec_body s [] c) as [[fr1 c1] o1].
  destruct (leave_scope fr1 c1 o1). reflexivity.
Qed.

Lemma exec_body_If (cond : State -> bool) a b fr c :
  exec_body (If cond a b) fr c =
  (fr, fst (exec_block (if cond (st c) then a else b) c),
       snd (exec_block (if cond (st c) then a else b) c)).
Proof.
  unfold exec_block. simpl.
  destruct (exec_body (if cond (st c) then a else b) [] c) as [[fr1 c1] o1].
  destruct (leave_scope fr1 c1 o1). reflexivity.
Qed.

Lemma exec_body_Try s (handler : Exn -> stmt State Exn) fr c :
  exec_body (Try s handler) fr c =
  match exec_block s c with
  | (c2, Exit (SThrow e)) =>
      (fr, fst (exec_block (handler e) c2), snd (exec_block (handler e) c2))
  | (c2, o2) => (fr, c2, o2)
  end.
Proof.
  unfold exec_block. simpl. destruct (exec_body s [] c) as [[fr1 c1] o1].
  destruct (leave_scope fr1 c1 o1) as [c2 [[| | e] |]]; try reflexivity.
  destruct (exec_body (handler e) [] c2) as [[fr3 c3] o3].
  destruct (leave_scope fr3 c3 o3). reflexivity.
Qed.

(** Code whose guards have actions that return leaves such guards on the
    frame. *)
Lemma exec_body_unfailing s : unfailing s -> forall fr c fr' c' o,
  exec_body s fr c = (fr', c', o) ->
  exists new, fr' = new ++ fr /\ Forall (@never_fails State Exn) new.
Proof.
  induction s as [| a IHa b IHb | f | C HC callable | C HC HV | body IH | cond a IHa b IHb
                  | | e | body IHb handler IHh | body IH]; intros U fr c fr' c' o.
  - simpl. intros E. injection E as <- <- <-. exists []. auto.
  - simpl. destruct U as [Ua Ub].
    destruct (exec_body a fr c) as [[fr1 c1] o1] eqn:Ea.
    destruct (IHa Ua _ _ _ _ _ Ea) as [n1 [F1 N1]].
    destruct o1 as [[| | e] |]; try (intros E; injection E as <- <- <-; exists n1; auto).
    intros Eb. destruct (IHb Ub _ _ _ _ _ Eb) as [n2 [F2 N2]].
    exists (n2 ++ n1). rewrite F2, F1, app_assoc. split; [reflexivity |].
    apply Forall_app. auto.
  - simpl. destruct (f (st c)); intros E; injection E as <- <- <-; exists []; auto.
  - simpl. intros E. injection E as <- <- <-. eexists [_]. split; [reflexivity |].
    constructor; [exact U | constructor].
  - simpl. intros E. injection E as <- <- <-. eexists [_]. split; [reflexivity |].
    constructor; [exact U | constructor].
  - rewrite exec_body_Block. intros E. injection E as <- _ _. exists []. auto.
  - rewrite exec_body_If. intros E. injection E as <- _ _. exists []. auto.
  - simpl. intros E. injection E as <- <- <-. exists []. auto.
  - simpl. intros E. injection E as <- <- <-. exists []. auto.
  - rewrite exec_body_Try. destruct (exec_block body c) as [c2 [[| | e] |]];
      intros E; injection E as <- _ _; exists []; auto.
  - rewrite exec_body_Call. intros E. injection E as <- _ _. exists []. auto.
Qed.

(** *** A counter *)

Section CounterFacts.

Variable counter : State -> nat.

Lemma destroy_quiet g c c' ok :
  quiet_guard counter g -> destroy g c = (c', ok) -> counter (st c') = counter (st c).
Proof.
  intros Q. specialize (Q (st c)). unfold action in Q. unfold destroy, Defer_dtor.
  destruct (@invoke _ _ _ (g_callable g) (m_callable (g_obj g)) (st c));
    intros E; injection E as <- <-; exact Q.
Qed.

Lemma unwind_quiet fr : Forall (quiet_guard counter) fr -> forall c c' ok,
  unwind fr c = (c', ok) -> counter (st c') = counter (st c).
Proof.
  induction 1 as [| g rest Q _ IH]; intros c c' ok; simpl.
  - intros E. injection E as <- <-. reflexivity.
  - destruct (destroy g c) as [c1 ok1] eqn:D. apply (@destroy_quiet g c c1 ok1 Q) in D.
    destruct ok1.
    + intros E. rewrite (IH _ _ _ E). exact D.
    + intros E. injection E as <- <-. exact D.
Qed.

Lemma leave_scope_quiet fr c o c' o' :
  Forall (quiet_guard counter) fr -> leave_scope fr c o = (c', o') ->
  counter (st c') = counter (st c).
Proof.
  intros Q. unfold leave_scope. destruct o as [sig |].
  - destruct (unwind fr c) as [c1 ok] eqn:U. intros E. injection E as <- _.
    exact (@unwind_quiet _ Q _ _ _ U).
  - intros E. injection E as <- _. reflexivity.
Qed.

Lemma exec_block_quiet s c :
  (forall fr c fr' c' o, exec_body s fr c = (fr', c', o) ->
     counter (st c') = counter (st c) /\
     exists new, fr' = new ++ fr /\ Forall (quiet_guard counter) new) ->
  counter (st (fst (exec_block s c))) = counter (st c).
Proof.
  intros H. unfold exec_block. destruct (exec_body s [] c) as [[fr1 c1] o1] eqn:E.
  destruct (H _ _ _ _ _ E) as [X [new [F Q]]]. rewrite app_nil_r in F. subst fr1.
  destruct (leave_scope new c1 o1) as [c2 o2] eqn:L. simpl.
  rewrite (@leave_scope_quiet _ _ _ _ _ Q L). exact X.
Qed.

(** Quiet code leaves the counter as it is, and leaves quiet guards on the
    frame. *)
Lemma exec_body_quiet s : quiet counter s -> forall fr c fr' c' o,
  exec_body s fr c = (fr', c', o) ->
  counter (st c') = counter (st c) /\
  exists new, fr' = new ++ fr /\ Forall (quiet_guard counter) new.
Proof.
  induction s as [| a IHa b IHb | f | C HC callable | C HC HV | body IH | cond a IHa b IHb
                  | | e | body IHb handler IHh | body IH]; intros Q fr c fr' c' o.
  - simpl. intros E. injection E as <- <- <-. split; [reflexivity | exists []; auto].
  - simpl. destruct Q as [Qa Qb].
    destruct (exec_body a fr c) as [[fr1 c1] o1] eqn:Ea.
    destruct (IHa Qa _ _ _ _ _ Ea) as [X1 [n1 [F1 N1]]].
    destruct o1 as [[| | e] |];
      try (intros E; injection E as <- <- <-; split; [exact X1 | exists n1; auto]).
    intros Eb. destruct (IHb Qb _ _ _ _ _ Eb) as [X2 [n2 [F2 N2]]].
    split; [congruence |]. exists (n2 ++ n1). rewrite F2, F1, app_assoc.
    split; [reflexivity |]. apply Forall_app. auto.
  - simpl. simpl in Q. specialize (Q (st c)).
    destruct (f (st c)); intros E; injection E as <- <- <-;
      (split; [exact Q | exists []; auto]).
  - simpl. intros E. injection E as <- <- <-. split; [reflexivity |].
    eexists [_]. split; [reflexivity |]. constructor; [exact Q | constructor].
  - simpl. intros E. injection E as <- <- <-. split; [reflexivity |].
    eexists [_]. split; [reflexivity |]. constructor; [exact Q | constructor].
  - rewrite exec_body_Block. intros E. injection E as <- <- _.
    split; [| exists []; auto]. apply exec_block_quiet. apply IH. exact Q.
  - rewrite exec_body_If. destruct Q as [Qa Qb]. intros E. injection E as <- <- _.
    split; [| exists []; auto]. apply exec_block_quiet.
    destruct (cond (st c)); [apply IHa | apply IHb]; assumption.
  - simpl. intros E. injection E as <- <- <-. split; [reflexivity | exists []; auto].
  - simpl. intros E. injection E as <- <- <-. split; [reflexivity | exists []; auto].
  - rewrite exec_body_Try. destruct Q as [Qb Qh].
    pose proof (@exec_block_quiet body c (IHb Qb)) as Xb.
    destruct (exec_block body c) as [c2 o2]. simpl in Xb.
    destruct o2 as [[| | e] |]; intros E; injection E as <- <- _;
      try (split; [exact Xb | exists []; auto]).
    split; [| exists []; auto].
    rewrite (@exec_block_quiet (handler e) c2 (IHh e (Qh e))). exact Xb.
  - rewrite exec_body_Call. intros E. injection E as <- <- _.
    split; [| exists []; auto]. apply exec_block_quiet. apply IH. exact Q.
Qed.

(** The body of { pre; Defer g(a); post }, with [pre] and [post] quiet: the
    guard is on the frame, between the guards of [post] and those of [pre],
    and the counter is where it was. *)
Lemma guarded_block_body (C : Type) (HC : Callable State Exn C) (a : C)
    (pre post : stmt State Exn) c fr_p c_p fr1 c1 o1 :
  quiet counter pre -> quiet counter post ->
  exec_body pre [] c = (fr_p, c_p, Exit SNormal) ->
  exec_body (guarded_block HC a pre post) [] c = (fr1, c1, o1) ->
  counter (st c_p) = counter (st c) /\
  counter (st c1) = counter (st c) /\
  exists new,
    fr1 = new ++ {| g_id := next_id c_p; g_callable := HC; g_obj := Defer_ctor a |} :: fr_p /\
    Forall (quiet_guard counter) new /\ Forall (quiet_guard counter) fr_p.
Proof.
  intros Qp Qq Ep. unfold guarded_block. simpl. rewrite Ep.
  destruct (@exec_body_quiet pre Qp _ _ _ _ _ Ep) as [Xp [np [Fp Np]]].
  rewrite app_nil_r in Fp. subst np.
  unfold construct. intros Eq.
  destruct (@exec_body_quiet post Qq _ _ _ _ _ Eq) as [Xq [nq [Fq Nq]]]. simpl in Xq.
  split; [exact Xp |]. split; [congruence |]. exists nq. auto.
Qed.

(** Leaving a block one of whose guards counts, the others being quiet:
    the counter is one more, unless a destructor ended the program. *)
Lemma leave_scope_counting (new rest : frame State Exn) g c1 o1 c' o' :
  leave_scope (new ++ g :: rest) c1 o1 = (c', o') ->
  Forall (quiet_guard counter) new -> Forall (quiet_guard counter) rest ->
  (forall x, exists r x', action g x = Done r x' /\ counter x' = S (counter x)) ->
  (o' = Abort /\
   (counter (st c') = counter (st c1) \/ counter (st c') = S (counter (st c1)))) \/
  (o' = o1 /\ o1 <> Abort /\ counter (st c') = S (counter (st c1))).
Proof.
  intros Lv Qn Qr Hg. revert Lv. unfold leave_scope. destruct o1 as [sig |].
  - rewrite unwind_app. destruct (unwind new c1) as [c2 ok] eqn:U.
    pose proof (@unwind_quiet _ Qn _ _ _ U) as X2. destruct ok.
    + simpl. destruct (Hg (st c2)) as [r [x' [Ea Ex]]].
      rewrite (destroy_done _ _ Ea).
      match goal with |- context [unwind rest ?d] =>
        destruct (unwind rest d) as [c4 ok4] eqn:U4 end.
      pose proof (@unwind_quiet _ Qr _ _ _ U4) as X4. simpl in X4.
      intros E. injection E as <- <-. destruct ok4.
      * right. split3; [reflexivity | discriminate | congruence].
      * left. split; [reflexivity | right; congruence].
    + intros E. injection E as <- <-. left. split; [reflexivity | left; exact X2].
  - intros E. injection E as <- <-. left. split; [reflexivity | left; reflexivity].
Qed.

(** C1. A guard constructed with an action invokes the action exactly once
    when control leaves its block, in whichever of the three ways the block
    is left.  The block is { pre; Defer g(a); post }, executed at any depth
    and in any state; the action [a] counts its calls in a counter that the
    rest of the block leaves alone; [pre] falls through, so that the guard is
    constructed; the block is left with [sig]: a fall-through, a return or an
    exception in flight.  Then the counter has not moved when the body ends
    and is exactly one more when the block has been left; and the enclosing
    block, or the caller of a function whose body the block is, goes on with
    that state and with the guards it had. *)
Theorem guard_fires_exactly_once (C : Type) (HC : Callable State Exn C) (a : C)
    (pre post : stmt State Exn) c fr_p c_p c' (sig : signal Exn) :
  counts counter HC a -> quiet counter pre -> quiet counter post ->
  exec_body pre [] c = (fr_p, c_p, Exit SNormal) ->
  exec_block (guarded_block HC a pre post) c = (c', Exit sig) ->
  (forall fr1 c1 o1, exec_body (guarded_block HC a pre post) [] c = (fr1, c1, o1) ->
     o1 = Exit sig /\ counter (st c1) = counter (st c)) /\
  counter (st c') = S (counter (st c)) /\
  (forall fr, exec_body (Block (guarded_block HC a pre post)) fr c = (fr, c', Exit sig)) /\
  (forall fr, exec_body (Call (guarded_block HC a pre post)) fr c =
              (fr, c', at_call_boundary (Exit sig))).
Proof.
  intros Ha Qp Qq Ep Ek.
  assert (B : forall fr1 c1 o1,
             exec_body (guarded_block HC a pre post) [] c = (fr1, c1, o1) ->
             o1 = Exit sig /\ counter (st c1) = counter (st c) /\
             counter (st c') = S (counter (st c1))).
  { intros fr1 c1 o1 Eb.
    destruct (@guarded_block_body _ _ _ _ _ _ _ _ _ _ _ Qp Qq Ep Eb) as [_ [X1 [new [F [Qn Qr]]]]].
    unfold exec_block in Ek. rewrite Eb, F in Ek.
    destruct (@leave_scope_counting _ _ _ _ _ _ _ Ek Qn Qr Ha) as [[A _] | [O [_ X']]];
      [discriminate | auto]. }
  split3.
  - intros fr1 c1 o1 Eb. destruct (B _ _ _ Eb) as [O [X1 _]]. auto.
  - destruct (exec_body (guarded_block HC a pre post) [] c) as [[fr1 c1] o1] eqn:Eb.
    destruct (B _ _ _ eq_refl) as [_ [X1 X']]. congruence.
  - split; intros fr.
    + rewrite exec_body_Block, Ek. reflexivity.
    + rewrite exec_body_Call, Ek. reflexivity.
Qed.

(** C2. The lifecycle of a guard: Armed from its construction until control
    leaves its block, then Fired, and nothing else.  The block is
    { pre; Defer g(a); post }, executed at any depth and in any state, where
    [post] is any code, run as far as it goes: whatever has been executed of
    the block after the declaration.  The action counts its calls in a
    counter that the rest of the block leaves alone, and the state of the
    guard is read off that counter.
    - At the end of the body, however the body ends, the guard is among the
      automatic objects of the block and is Armed: no code of the block has
      fired it early.
    - When the block has been left, the guard is Fired, and it is gone: the
      enclosing block goes on with the automatic objects it had.
    - When instead the program is ended on the way (by the body or by the
      destructor of another guard), the guard is Armed or Fired: in no run
      has its action been called twice.
    - The class has no operation that could fire a live guard, disarm it or
      arm it again: all it offers are the destructor and the two
      constructors.
    - A guard declared with no action is the guard that holds the
      value-initialised callable: its block runs as the block above does
      with that callable for [a]. *)
Theorem guard_lifecycle (C : Type) (HC : Callable State Exn C) (a : C)
    (pre post : stmt State Exn) c fr_p c_p fr1 c1 o1 :
  counts counter HC a -> quiet counter pre -> quiet counter post ->
  exec_body pre [] c = (fr_p, c_p, Exit SNormal) ->
  exec_body (guarded_block HC a pre post) [] c = (fr1, c1, o1) ->
  In {| g_id := next_id c_p; g_callable := HC; g_obj := Defer_ctor a |} fr1 /\
  guard_state_of (counter (st c_p)) (counter (st c1)) = Some Armed /\
  (forall c' o', exec_block (guarded_block HC a pre post) c = (c', o') ->
     (o' <> Abort -> guard_state_of (counter (st c_p)) (counter (st c')) = Some Fired) /\
     (guard_state_of (counter (st c_p)) (counter (st c')) = Some Armed \/
      guard_state_of (counter (st c_p)) (counter (st c')) = Some Fired) /\
     (forall fr, exec_body (Block (guarded_block HC a pre post)) fr c = (fr, c', o'))) /\
  (forall m, Static.usable m = true ->
             m = Static.Dtor \/ m = Static.DefaultCtor \/ m = Static.CallableCtor) /\
  (forall (HV : ValueInit C) c0,
     exec_body (Seq pre (Seq (DeclareDefault HC HV) post)) [] c0 =
     exec_body (guarded_block HC (value_init (C:=C)) pre post) [] c0).
Proof.
  intros Ha Qp Qq Ep Eb.
  destruct (@guarded_block_body _ _ _ _ _ _ _ _ _ _ _ Qp Qq Ep Eb) as [Xp [X1 [new [F [Qn Qr]]]]].
  assert (SA : forall n k, k = n -> guard_state_of n k = Some Armed).
  { intros n k ->. unfold guard_state_of. now rewrite Nat.eqb_refl. }
  assert (SF : forall n k, k = S n -> guard_state_of n k = Some Fired).
  { intros n k ->. unfold guard_state_of.
    destruct (Nat.eqb_spec (S n) n) as [E | _]; [lia |]. now rewrite Nat.eqb_refl. }
  split; [| split3].
  - rewrite F. apply in_or_app. right. left. reflexivity.
  - apply SA. congruence.
  - intros c' o' Ek.
    assert (K : forall fr, exec_body (Block (guarded_block HC a pre post)) fr c = (fr, c', o')).
    { intros fr. rewrite exec_body_Block, Ek. reflexivity. }
    unfold exec_block in Ek. rewrite Eb, F in Ek.
    destruct (@leave_scope_counting _ _ _ _ _ _ _ Ek Qn Qr Ha) as [[A [X | X]] | [O [N X]]].
    + split3; [intros H; contradiction | left; apply SA; congruence | exact K].
    + split3; [intros H; contradiction | right; apply SF; congruence | exact K].
    + split3; [intros _; apply SF; congruence | right; apply SF; congruence | exact K].
  - split.
    + intros m. destruct m; simpl; intros H; try discriminate H; auto.
    + intros HV c0. reflexivity.
Qed.

(** C9. An exception that unwinds through a block with a guard goes on to the
    caller unchanged, and the action has run exactly once by then.  The block
    is { pre; Defer g(a); post }; the action [a] sets a flag, counted by a
    counter that the rest of the block leaves alone; the actions of the
    other guards of the block return; [pre] falls through and the body raises
    [e].  Then the block is left with [e] in flight and the counter one more
    than it was: an enclosing block and a function whose body the block is
    pass [e] on, and a handler around the block receives that same [e], in
    that state. *)
Theorem unwinding_keeps_the_error (C : Type) (HC : Callable State Exn C) (a : C)
    (pre post : stmt State Exn) c fr_p c_p fr1 c1 (e : Exn) :
  counts counter HC a ->
  quiet counter pre -> quiet counter post -> unfailing pre -> unfailing post ->
  exec_body pre [] c = (fr_p, c_p, Exit SNormal) ->
  exec_body (guarded_block HC a pre post) [] c = (fr1, c1, Exit (SThrow e)) ->
  exists c',
    exec_block (guarded_block HC a pre post) c = (c', Exit (SThrow e)) /\
    counter (st c1) = counter (st c) /\
    counter (st c') = S (counter (st c)) /\
    (forall fr, exec_body (Block (guarded_block HC a pre post)) fr c =
                (fr, c', Exit (SThrow e))) /\
    (forall fr, exec_body (Call (guarded_block HC a pre post)) fr c =
                (fr, c', Exit (SThrow e))) /\
    (forall handler fr,
       exec_body (Try (guarded_block HC a pre post) handler) fr c =
       (fr, fst (exec_block (handler e) c'), snd (exec_block (handler e) c'))).
Proof.
  intros Ha Qp Qq Up Uq Ep Eb.
  destruct (@guarded_block_body _ _ _ _ _ _ _ _ _ _ _ Qp Qq Ep Eb) as [_ [X1 [new [F [Qn Qr]]]]].
  assert (N : forall g, In g fr1 -> never_fails g).
  { assert (U : unfailing (guarded_block HC a pre post)).
    { simpl. split3; [exact Up | | exact Uq].
      intros x. destruct (Ha x) as [r [x' [E _]]]. eauto. }
    destruct (@exec_body_unfailing _ U _ _ _ _ _ Eb) as [nw [Fw Nw]].
    rewrite app_nil_r in Fw. subst nw. rewrite Forall_forall in Nw. exact Nw. }
  destruct (@unwind_never_fails _ _ fr1 c1 N) as [c' Uw].
  assert (Ek : exec_block (guarded_block HC a pre post) c = (c', Exit (SThrow e))).
  { unfold exec_block. rewrite Eb. unfold leave_scope. rewrite Uw. reflexivity. }
  exists c'. split; [exact Ek |]. split; [exact X1 |]. split; [| split3].
  - pose proof Ek as Ek'. unfold exec_block in Ek'. rewrite Eb, F in Ek'.
    destruct (@leave_scope_counting _ _ _ _ _ _ _ Ek' Qn Qr Ha) as [[A _] | [_ [_ X']]];
      [discriminate | congruence].
  - intros fr. rewrite exec_body_Block, Ek. reflexivity.
  - intros fr. rewrite exec_body_Call, Ek. reflexivity.
  - intros handler fr. rewrite exec_body_Try, Ek. reflexivity.
Qed.

End CounterFacts.

(** *** A sequence *)

Section SequenceFacts.

Variable L : Type.
Variable sequence : State -> list L.

(** Unwinding guards that append: each appends its label, from the top of
    the frame down. *)
Lemma unwind_appending (P : L -> Prop) fr : forall c,
  Forall (fun g => exists l, P l /\ guard_appends sequence g l) fr ->
  exists c' t, unwind fr c = (c', true) /\ sequence (st c') = sequence (st c) ++ t /\
               Forall2 (guard_appends sequence) fr t /\ Forall P t.
Proof.
  induction fr as [| g rest IH]; intros c H.
  - exists c, []. simpl. rewrite app_nil_r. auto.
  - inversion H as [| ? ? [l [Pl Hl]] Hr]; subst.
    destruct (Hl (st c)) as [r [x' [Ea Ex]]]. simpl.
    rewrite (destroy_done _ _ Ea).
    match goal with |- context [unwind rest ?d] =>
      destruct (IH d Hr) as [c' [t [U [X [F2 Ft]]]]] end.
    exists c', (l :: t). split; [exact U |]. split3.
    + rewrite X. simpl. rewrite Ex, <- app_assoc. reflexivity.
    + constructor; assumption.
    + constructor; assumption.
Qed.

Lemma leave_scope_appending (P : L -> Prop) fr c o :
  Forall (fun g => exists l, P l /\ guard_appends sequence g l) fr ->
  exists c' t, leave_scope fr c o = (c', o) /\ sequence (st c') = sequence (st c) ++ t /\
               Forall P t /\ (o <> Abort -> Forall2 (guard_appends sequence) fr t).
Proof.
  intros H. destruct o as [sig |].
  - destruct (@unwind_appending _ _ c H) as [c' [t [U [X [F2 Ft]]]]].
    exists c', t. unfold leave_scope. rewrite U. auto.
  - exists c, []. simpl. rewrite app_nil_r. split3; [reflexivity | reflexivity |].
    split; [constructor | intros N; contradiction].
Qed.

Lemma exec_block_sequenced s c :
  (forall fr c fr' c' o, exec_body s fr c = (fr', c', o) ->
     exists new t, fr' = new ++ fr /\ sequence (st c') = sequence (st c) ++ t /\
       Forall (inner sequence s) t /\
       Forall (fun g => exists l, own sequence s l /\ guard_appends sequence g l) new) ->
  exists t, sequence (st (fst (exec_block s c))) = sequence (st c) ++ t /\
            Forall (fun l => own sequence s l \/ inner sequence s l) t.
Proof.
  intros H. unfold exec_block. destruct (exec_body s [] c) as [[fr1 c1] o1] eqn:E.
  destruct (H _ _ _ _ _ E) as [new [t [F [X [Ti Ng]]]]]. rewrite app_nil_r in F. subst fr1.
  destruct (@leave_scope_appending _ _ c1 o1 Ng) as [c2 [u [Lv [Xu [Tu _]]]]].
  rewrite Lv. simpl. exists (t ++ u). rewrite Xu, X, app_assoc. split; [reflexivity |].
  apply Forall_app. split.
  - eapply Forall_impl; [| exact Ti]. simpl. auto.
  - eapply Forall_impl; [| exact Tu]. simpl. auto.
Qed.

(** While the body of a block runs, the sequence gains labels of guards of
    the nested blocks only; the guards left on the frame are the block's
    own. *)
Lemma exec_body_sequenced s : sequenced sequence s -> forall fr c fr' c' o,
  exec_body s fr c = (fr', c', o) ->
  exists new t, fr' = new ++ fr /\ sequence (st c') = sequence (st c) ++ t /\
    Forall (inner sequence s) t /\
    Forall (fun g => exists l, own sequence s l /\ guard_appends sequence g l) new.
Proof.
  induction s as [| a IHa b IHb | f | C HC callable | C HC HV | body IH | cond a IHa b IHb
                  | | e | body IHb handler IHh | body IH]; intros Q fr c fr' c' o.
  - simpl. intros E. injection E as <- <- <-. exists [], []. rewrite app_nil_r. auto.
  - simpl. destruct Q as [Qa Qb].
    destruct (exec_body a fr c) as [[fr1 c1] o1] eqn:Ea.
    destruct (IHa Qa _ _ _ _ _ Ea) as [n1 [t1 [F1 [X1 [T1 N1]]]]].
    assert (T1' : Forall (fun l => inner sequence a l \/ inner sequence b l) t1).
    { eapply Forall_impl; [| exact T1]. simpl. auto. }
    assert (N1' : Forall (fun g => exists l, (own sequence a l \/ own sequence b l) /\
                                             guard_appends sequence g l) n1).
    { eapply Forall_impl; [| exact N1]. simpl. intros g [l [O A]]. eauto. }
    destruct o1 as [[| | e] |];
      try (intros E; injection E as <- <- <-; exists n1, t1; auto).
    intros Eb. destruct (IHb Qb _ _ _ _ _ Eb) as [n2 [t2 [F2 [X2 [T2 N2]]]]].
    exists (n2 ++ n1), (t1 ++ t2). rewrite F2, F1, X2, X1, !app_assoc.
    split3; [reflexivity | reflexivity |]. split; apply Forall_app; split; auto.
    + eapply Forall_impl; [| exact T2]. simpl. auto.
    + eapply Forall_impl; [| exact N2]. simpl. intros g [l [O A]]. eauto.
  - simpl. simpl in Q. specialize (Q (st c)).
    destruct (f (st c)); intros E; injection E as <- <- <-; exists [], [];
      rewrite app_nil_r; simpl in *; auto.
  - simpl. intros E. injection E as <- <- <-. destruct Q as [l Hl].
    eexists [_], []. rewrite app_nil_r. split3; [reflexivity | reflexivity |].
    split; [constructor |]. constructor; [| constructor]. exists l. split; exact Hl.
  - simpl. intros E. injection E as <- <- <-. destruct Q as [l Hl].
    eexists [_], []. rewrite app_nil_r. split3; [reflexivity | reflexivity |].
    split; [constructor |]. constructor; [| constructor]. exists l. split; exact Hl.
  - rewrite exec_body_Block. intros E. injection E as <- <- _.
    destruct (@exec_block_sequenced body c (IH Q)) as [t [X T]].
    exists [], t. auto.
  - rewrite exec_body_If. destruct Q as [Qa Qb]. intros E. injection E as <- <- _.
    exists []. destruct (cond (st c)).
    + destruct (@exec_block_sequenced a c (IHa Qa)) as [t [X T]]. exists t.
      split3; [reflexivity | exact X |]. split; [| constructor].
      eapply Forall_impl; [| exact T]. simpl. auto.
    + destruct (@exec_block_sequenced b c (IHb Qb)) as [t [X T]]. exists t.
      split3; [reflexivity | exact X |]. split; [| constructor].
      eapply Forall_impl; [| exact T]. simpl. auto.
  - simpl. intros E. injection E as <- <- <-. exists [], []. rewrite app_nil_r. auto.
  - simpl. intros E. injection E as <- <- <-. exists [], []. rewrite app_nil_r. auto.
  - rewrite exec_body_Try. destruct Q as [Qb Qh].
    destruct (@exec_block_sequenced body c (IHb Qb)) as [t [X T]].
    assert (T' : Forall (inner sequence (Try body handler)) t).
    { eapply Forall_impl; [| exact T]. simpl. auto. }
    destruct (exec_block body c) as [c2 o2]. simpl in X.
    destruct o2 as [[| | e] |]; intros E; injection E as <- <- _;
      try solve [exists [], t; split3; [reflexivity | exact X |]; split; [exact T' | constructor]].
    destruct (@exec_block_sequenced (handler e) c2 (IHh e (Qh e))) as [u [Xu Tu]].
    exists [], (t ++ u). rewrite Xu, X, app_assoc. split3; [reflexivity | reflexivity |].
    split; [| constructor]. apply Forall_app. split; [exact T' |].
    eapply Forall_impl; [| exact Tu]. simpl. intros l H. right. exists e. exact H.
  - rewrite exec_body_Call. intros E. injection E as <- <- _.
    destruct (@exec_block_sequenced body c (IH Q)) as [t [X T]].
    exists [], t. auto.
Qed.

End SequenceFacts.

End ObservedFacts.

(** The guards of a tower fire from the innermost block outwards. *)
Lemma tower_sequence (Exn : Type) (levels : list (nat * nat)) :
  forall c : config (list nat),
  exists c', exec_block (tower Exn levels) c = (c', Exit SNormal) /\
             st c' = st c ++ tower_fires levels.
Proof.
  induction levels as [| [a b] rest IH]; intros c.
  - exists c. simpl. rewrite app_nil_r. auto.
  - unfold exec_block. simpl.
    match goal with |- context [exec_body (tower Exn rest) [] ?d] =>
      destruct (IH d) as [c2 [E X]]; unfold exec_block in E;
      destruct (exec_body (tower Exn rest) [] d) as [[fr1 c1] o1] end.
    rewrite E. eexists. split; [reflexivity |]. simpl. rewrite X. simpl.
    rewrite <- !app_assoc. reflexivity.
Qed.

(** C4. The guards of an inner block fire before the guards of the block
    around it, at any depth of nesting.
    - Blocks nested to any depth, each declaring a guard before its inner
      block and one after it, every guard appending its identifier to a
      shared sequence: the sequence gains the identifiers of the innermost
      block first and those of the outermost block last, and in each block
      those of the guard declared last first.
    - In general, for any block in which the guards append labels to a
      sequence that nothing else touches, executed at any depth, whatever
      statements it is made of and in whichever way it is left: what the
      sequence gains is [t_in ++ t_own], where [t_in], gained while the body
      runs, holds labels of guards of blocks nested in the block, and
      [t_own], gained when the block is left, holds the labels of the
      block's own guards, one for each, last declared first. *)
Theorem inner_guard_fires_first :
  (forall (Exn : Type) (levels : list (nat * nat)) (c : config (list nat)),
     exists c', exec_block (tower Exn levels) c = (c', Exit SNormal) /\
                st c' = st c ++ tower_fires levels) /\
  (forall (State Exn L : Type) (sequence : State -> list L) (s : stmt State Exn)
          c fr1 c1 o1 c' o',
     sequenced sequence s ->
     exec_body s [] c = (fr1, c1, o1) ->
     exec_block s c = (c', o') ->
     exists t_in t_own,
       sequence (st c1) = sequence (st c) ++ t_in /\
       sequence (st c') = sequence (st c1) ++ t_own /\
       Forall (inner sequence s) t_in /\
       Forall (own sequence s) t_own /\
       o' = o1 /\
       (o' <> Abort -> Forall2 (guard_appends sequence) fr1 t_own)).
Proof.
  split.
  - intros Exn levels c. apply tower_sequence.
  - intros State Exn L sequence s c fr1 c1 o1 c' o' Q Eb Ek.
    destruct (@exec_body_sequenced _ _ _ _ _ Q _ _ _ _ _ Eb) as [new [t [F [X [Ti Ng]]]]].
    rewrite app_nil_r in F. subst new.
    destruct (@leave_scope_appending _ _ _ _ _ _ c1 o1 Ng) as [c2 [u [Lv [Xu [Tu F2]]]]].
    unfold exec_block in Ek. rewrite Eb, Lv in Ek. injection Ek as <- <-.
    exists t, u. split; [exact X |]. split; [exact Xu |]. split; [exact Ti |].
    split; [exact Tu |]. split; [reflexivity | exact F2].
Qed.

(** ** The guarded blocks, run *)

(** { Defer g0(idle); Defer g(bump); post }, left in each of the three ways:
    the counter is at 1. *)
Example around_falls_through :
  exec_block (around Skip) (init 0) =
  ({| st := 1; trace := [Construct 0; Construct 1; Invoke 1; Finish 1; Invoke 0; Finish 0];
      next_id := 2 |}, Exit SNormal).
Proof. reflexivity. Qed.

Example around_returns :
  exec_block (around Return) (init 0) =
  ({| st := 1; trace := [Construct 0; Construct 1; Invoke 1; Finish 1; Invoke 0; Finish 0];
      next_id := 2 |}, Exit SReturn).
Proof. reflexivity. Qed.

Example around_throws :
  exec_block (around (Block (Throw 7))) (init 0) =
  ({| st := 1; trace := [Construct 0; Construct 1; Invoke 1; Finish 1; Invoke 0; Finish 0];
      next_id := 2 |}, Exit (SThrow 7)).
Proof. reflexivity. Qed.

(** Three guards, each in a block of its own: each has counted once. *)
Example nested_counts_three : st (fst (exec_block nested (init 0))) = 3.
Proof. reflexivity. Qed.

Lemma bump_counts : counts the_counter (closure_Callable nat nat unit) bump.
Proof. intros x. exists tt, (S x). split; reflexivity. Qed.

Lemma idle_quiet : quiet the_counter (DeclareGuard (closure_Callable nat nat unit) idle).
Proof. intros x. reflexivity. Qed.

Lemma idle_unfailing : unfailing (DeclareGuard (closure_Callable nat nat unit) idle).
Proof. intros x. exists tt, x. reflexivity. Qed.

(** [guard_fires_exactly_once] on the three ways out. *)
Lemma guard_fires_exactly_once_witness :
  the_counter (st (fst (exec_block (around Skip) (init 0)))) = 1 /\
  the_counter (st (fst (exec_block (around Return) (init 0)))) = 1 /\
  the_counter (st (fst (exec_block (around (Block (Throw 7))) (init 0)))) = 1.
Proof.
  split; [| split].
  - exact (proj1 (proj2 (@guard_fires_exactly_once nat nat the_counter _
             (closure_Callable nat nat unit) bump
             (DeclareGuard (closure_Callable nat nat unit) idle) Skip
             (init 0) _ _ _ SNormal bump_counts idle_quiet I eq_refl eq_refl))).
  - exact (proj1 (proj2 (@guard_fires_exactly_once nat nat the_counter _
             (closure_Callable nat nat unit) bump
             (DeclareGuard (closure_Callable nat nat unit) idle) Return
             (init 0) _ _ _ SReturn bump_counts idle_quiet I eq_refl eq_refl))).
  - exact (proj1 (proj2 (@guard_fires_exactly_once nat nat the_counter _
             (closure_Callable nat nat unit) bump
             (DeclareGuard (closure_Callable nat nat unit) idle) (Block (Throw 7))
             (init 0) _ _ _ (SThrow 7) bump_counts idle_quiet I eq_refl eq_refl))).
Defined.

(** [guard_lifecycle] on the block that is left by an exception: the guard is
    armed when the body ends and fired when the block has been left. *)
Lemma guard_lifecycle_witness :
  guard_state_of 0
    (the_counter (st (snd (fst (exec_body (around (Block (Throw 7))) [] (init 0)))))) =
    Some Armed /\
  guard_state_of 0 (the_counter (st (fst (exec_block (around (Block (Throw 7))) (init 0))))) =
    Some Fired.
Proof.
  destruct (@guard_lifecycle nat nat the_counter _ (closure_Callable nat nat unit) bump
              (DeclareGuard (closure_Callable nat nat unit) idle) (Block (Throw 7))
              (init 0) _ _ _ _ _ bump_counts idle_quiet I eq_refl eq_refl)
    as [_ [A [F _]]].
  split; [exact A |]. apply (proj1 (F _ _ eq_refl)). discriminate.
Defined.

(** [unwinding_keeps_the_error] on the flag: 7 goes on, to a caller and to a
    handler, and the flag has been set once. *)
Lemma unwinding_keeps_the_error_witness :
  exists c',
    exec_block (around (Block (Block (Throw 7)))) (init 0) = (c', Exit (SThrow 7)) /\
    the_counter (st c') = 1 /\
    (forall fr, exec_body (Call (around (Block (Block (Throw 7))))) fr (init 0) =
                (fr, c', Exit (SThrow 7))) /\
    (forall handler fr,
       exec_body (Try (around (Block (Block (Throw 7)))) handler) fr (init 0) =
       (fr, fst (exec_block (handler 7) c'), snd (exec_block (handler 7) c'))).
Proof.
  destruct (@unwinding_keeps_the_error nat nat the_counter _ (closure_Callable nat nat unit) bump
              (DeclareGuard (closure_Callable nat nat unit) idle) (Block (Block (Throw 7)))
              (init 0) _ _ _ _ 7 bump_counts idle_quiet I idle_unfailing I eq_refl eq_refl)
    as [c' [E [_ [X [_ [K T]]]]]].
  exists c'. split; [exact E |]. split; [exact X |]. split; [exact K | exact T].
Defined.

(** In a tower every guard appends its identifier and nothing else touches
    the sequence. *)
Lemma tower_sequenced (Exn : Type) (levels : list (nat * nat)) :
  sequenced the_sequence (tower Exn levels).
Proof.
  induction levels as [| [a b] rest IH]; simpl.
  - exact I.
  - split; [| split; [exact IH |]].
    + exists a. intros x. exists tt, (x ++ [a]). split; reflexivity.
    + exists b. intros x. exists tt, (x ++ [b]). split; reflexivity.
Qed.

(** { Defer g0(append 0); { Defer g2(append 2); { } Defer g3(append 3); }
      Defer g1(append 1); } *)
Example tower_of_two :
  st (fst (exec_block (tower nat [(0, 1); (2, 3)]) (init []))) = [3; 2; 1; 0].
Proof. reflexivity. Qed.

(** The general case of [inner_guard_fires_first] on that block: 3 and 2, of
    the inner block, are appended while the body runs; 1 and 0, of the block
    itself, when it is left. *)
Lemma inner_guard_fires_first_witness :
  exists t_in t_own,
    [3; 2] = [] ++ t_in /\ [3; 2; 1; 0] = [3; 2] ++ t_own /\
    Forall (inner the_sequence (tower nat [(0, 1); (2, 3)])) t_in /\
    Forall (own the_sequence (tower nat [(0, 1); (2, 3)])) t_own.
Proof.
  destruct inner_guard_fires_first as [_ H].
  destruct (H (list nat) nat nat the_sequence (tower nat [(0, 1); (2, 3)]) (init [])
              _ _ _ _ _ (tower_sequenced nat [(0, 1); (2, 3)]) eq_refl eq_refl)
    as [t_in [t_own [A [B [Ci [Co _]]]]]].
  exists t_in, t_own. split; [exact A |]. split; [exact B |]. split; [exact Ci | exact Co].
Defined.

(** ** The identifiers the macros declare *)

Module NamesFacts.
Import Stdlib.Strings.String Names.
Local Open Scope string_scope.

Lemma append_cancel (p a b : string) : p ++ a = p ++ b -> a = b.
Proof.
  induction p as [| ch p IH]; simpl; intros H; [exact H |].
  injection H as H. apply IH, H.
Qed.

(** The line number in decimal tells the line. *)
Lemma line_number_inj (l1 l2 : nat) : expanded l1 LINE = expanded l2 LINE -> l1 = l2.
Proof.
  simpl. intros H. apply (f_equal DecimalString.NilEmpty.uint_of_string) in H.
  rewrite !DecimalString.NilEmpty.usu in H. injection H as H.
  apply DecimalNat.Unsigned.to_uint_inj, H.
Qed.

Lemma LINEGENNAME_inj (l1 l2 : nat) :
  DETAIL_CRESS_DEFER_LINEGENNAME l1 = DETAIL_CRESS_DEFER_LINEGENNAME l2 -> l1 = l2.
Proof.
  unfold DETAIL_CRESS_DEFER_LINEGENNAME, DETAIL_CRESS_DEFER_CAT, DETAIL_CRESS_DEFER_CAT_IMPL.
  cbn [spelling]. intros H. apply line_number_inj. exact (@append_cancel _ _ _ H).
Qed.

(** Pasted without the second macro, __LINE__ would stay as it is written,
    whatever the line. *)
Lemma pasting_directly_ignores_the_line :
  DETAIL_CRESS_DEFER_CAT_IMPL (Text "line") LINE = "line__LINE__".
Proof. reflexivity. Qed.

Lemma guard_variable_inj (l1 l2 : nat) (a b : string) :
  guard_variable l1 a = guard_variable l2 b -> a = b.
Proof.
  unfold guard_variable, DETAIL_CRESS_DEFER_CAT, DETAIL_CRESS_DEFER_CAT_IMPL. simpl.
  intros H. exact (@append_cancel "CRESS_defer_" _ _ H).
Qed.

Lemma lambda_variable_inj (l1 l2 : nat) (a b : string) :
  lambda_variable l1 a = lambda_variable l2 b -> a = b.
Proof.
  unfold lambda_variable, DETAIL_CRESS_DEFER_CAT, DETAIL_CRESS_DEFER_CAT_IMPL. simpl.
  intros H. exact (@append_cancel "CRESS_deferfn_" _ _ H).
Qed.

(** The variable of a lambda is never the variable of a guard. *)
Lemma lambda_is_no_guard (l1 l2 : nat) (a b : string) :
  lambda_variable l1 a <> guard_variable l2 b.
Proof.
  unfold lambda_variable, guard_variable, DETAIL_CRESS_DEFER_CAT, DETAIL_CRESS_DEFER_CAT_IMPL.
  simpl. intros H. apply (@append_cancel "CRESS_defer") in H. discriminate H.
Qed.

(** A use declares its guard, under the name it was given, and nothing but
    that guard and the lambda of the same name. *)
Lemma declares_guard (u : use) :
  exists line, In (guard_variable line (name_of u)) (declares u).
Proof.
  destruct u as [line | line | line]; exists line; simpl; auto.
Qed.

Lemma declares_only (u : use) (x : string) :
  In x (declares u) ->
  exists line, x = guard_variable line (name_of u) \/ x = lambda_variable line (name_of u).
Proof.
  destruct u as [line | line | line]; simpl; intros H; exists line;
    intuition (subst; auto).
Qed.

Lemma declares_NoDup (u : use) : NoDup (declares u).
Proof.
  assert (Two : forall l a, NoDup [lambda_variable l a; guard_variable l a]).
  { intros l a. constructor.
    - intros [H | []]. symmetry in H. exact (@lambda_is_no_guard _ _ _ _ H).
    - constructor; [intros [] | constructor]. }
  assert (One : forall x : string, NoDup [x]).
  { intros x. constructor; [intros [] | constructor]. }
  destruct u as [line | line | line]; simpl; auto.
Qed.

(** Two uses declare a common variable exactly when they have the same
    name. *)
Lemma clash_iff_same_name (u v : use) :
  (exists x, In x (declares u) /\ In x (declares v)) <-> name_of u = name_of v.
Proof.
  split.
  - intros [x [Hu Hv]].
    destruct (@declares_only u x Hu) as [lu [-> | ->]];
      destruct (@declares_only v _ Hv) as [lv [H | H]].
    + exact (@guard_variable_inj _ _ _ _ H).
    + symmetry in H. destruct (@lambda_is_no_guard _ _ _ _ H).
    + destruct (@lambda_is_no_guard _ _ _ _ H).
    + exact (@lambda_variable_inj _ _ _ _ H).
  - intros E. destruct (declares_guard u) as [lu Hu], (declares_guard v) as [lv Hv].
    exists (guard_variable lu (name_of u)). split; [exact Hu |].
    rewrite E. unfold guard_variable, DETAIL_CRESS_DEFER_CAT in *. exact Hv.
Qed.

Lemma NoDup_app_iff (A : Type) (l m : list A) :
  NoDup (l ++ m)%list <-> NoDup l /\ NoDup m /\ (forall x, In x l -> ~ In x m).
Proof.
  induction l as [| a l IH]; simpl.
  - split; [intros H; repeat split; [constructor | exact H | tauto] | tauto].
  - split.
    + intros H. inversion H as [| ? ? Hn Hd]; subst. apply IH in Hd.
      destruct Hd as [Hl [Hm Hx]]. repeat split.
      * constructor; [| exact Hl]. intros Hin. apply Hn, in_or_app. now left.
      * exact Hm.
      * intros x [<- | Hin]; [| now apply Hx]. intros Hin. apply Hn, in_or_app. now right.
    + intros [Hl [Hm Hx]]. inversion Hl as [| ? ? Hn Hd]; subst. constructor.
      * intros Hin. apply in_app_or in Hin. destruct Hin as [Hin | Hin]; [contradiction |].
        exact (Hx a (or_introl eq_refl) Hin).
      * apply IH. repeat split; auto.
Qed.

Lemma no_redeclaration_iff_names (block : list use) :
  NoDup (declared_in block) <-> NoDup (map name_of block).
Proof.
  unfold declared_in. induction block as [| u block IH]; simpl.
  - split; constructor.
  - rewrite NoDup_app_iff, IH. split.
    + intros [_ [Hb Hx]]. constructor; [| exact Hb].
      intros Hin. apply in_map_iff in Hin. destruct Hin as [v [E Hv]].
      symmetry in E. apply clash_iff_same_name in E. destruct E as [x [Hu Hxv]].
      apply (Hx x Hu). apply in_flat_map. exists v. split; assumption.
    + intros H. inversion H as [| ? ? Hn Hb]; subst.
      split; [apply declares_NoDup |]. split; [exact Hb |].
      intros x Hu Hin. apply in_flat_map in Hin. destruct Hin as [v [Hv Hxv]].
      apply Hn. apply in_map_iff. exists v. split; [| exact Hv].
      symmetry. apply clash_iff_same_name. exists x. split; assumption.
Qed.

Lemma name_of_line (u : use) : name_of u = DETAIL_CRESS_DEFER_LINEGENNAME (line_of u).
Proof. destruct u; reflexivity. Qed.

Lemma names_differ_iff_lines_differ (block : list use) :
  NoDup (map name_of block) <-> NoDup (map line_of block).
Proof.
  induction block as [| u block IH]; simpl.
  - split; constructor.
  - split; intros H; inversion H as [| ? ? Hn Hb]; subst; constructor;
      try (apply IH; exact Hb); intros Hin; apply Hn; apply in_map_iff in Hin;
      destruct Hin as [v [E Hv]]; apply in_map_iff; exists v; (split; [| exact Hv]).
    + rewrite !name_of_line. now rewrite E.
    + rewrite !name_of_line in E. exact (@LINEGENNAME_inj _ _ E).
Qed.

(** X3. The uses of the line-named macros (CRESS_DEFER_BLOCK,
    CRESS_DEFER_CALLABLE_VARIABLE, CRESS_DEFER_BEGIN_CPP17, in any mix and
    number) in one block declare no variable twice exactly when no two of
    them are on the same line.  (The lambda and the guard of one
    CRESS_DEFER_BLOCK never clash with each other.) *)
Theorem no_redeclaration_iff_lines_differ (block : list use) :
  NoDup (declared_in block) <-> NoDup (map line_of block).
Proof.
  rewrite no_redeclaration_iff_names. apply names_differ_iff_lines_differ.
Qed.

(** X4. Two uses of the forms named by the line (CRESS_DEFER_BLOCK,
    CRESS_DEFER_CALLABLE_VARIABLE, CRESS_DEFER_BEGIN_CPP17, in any mix)
    declare a common variable exactly when they are on the same line: on
    different lines they never clash, on one line they always do. *)
Theorem line_named_uses_clash_iff_same_line (u v : use) (lu lv : nat) :
  line_named u = Some lu -> line_named v = Some lv ->
  ((exists x, In x (declares u) /\ In x (declares v)) <-> lu = lv).
Proof.
  intros Hu Hv. rewrite clash_iff_same_name.
  assert (Nu : name_of u = DETAIL_CRESS_DEFER_LINEGENNAME lu).
  { destruct u; simpl in *; try discriminate; injection Hu as <-; reflexivity. }
  assert (Nv : name_of v = DETAIL_CRESS_DEFER_LINEGENNAME lv).
  { destruct v; simpl in *; try discriminate; injection Hv as <-; reflexivity. }
  rewrite Nu, Nv. split; [apply LINEGENNAME_inj | intros ->; reflexivity].
Qed.

Lemma no_redeclaration_iff_lines_differ_witness :
  NoDup (declared_in [BLOCK 10; BEGIN_END_CPP17 12; CALLABLE_VARIABLE 14; BLOCK 15]) /\
  ~ NoDup (declared_in [BLOCK 10; CALLABLE_VARIABLE 12; BEGIN_END_CPP17 10]).
Proof.
  split.
  - apply no_redeclaration_iff_lines_differ. simpl.
    repeat constructor; simpl; intuition discriminate.
  - intros H. apply no_redeclaration_iff_lines_differ in H. simpl in H.
    inversion H as [| ? ? Hn _]. apply Hn. right. left. reflexivity.
Defined.

Lemma line_named_uses_clash_iff_same_line_witness :
  (exists x, In x (declares (BLOCK 42)) /\ In x (declares (BEGIN_END_CPP17 42))) /\
  ~ (exists x, In x (declares (BLOCK 42)) /\ In x (declares (CALLABLE_VARIABLE 43))).
Proof.
  split.
  - apply (@line_named_uses_clash_iff_same_line (BLOCK 42) (BEGIN_END_CPP17 42) 42 42);
      reflexivity.
  - intros H.
    apply (@line_named_uses_clash_iff_same_line (BLOCK 42) (CALLABLE_VARIABLE 43) 42 43)
      in H; [discriminate H | reflexivity | reflexivity].
Defined.

End NamesFacts.

(** ** The block CRESS_DEFER_BLOCK puts back together *)

Module VaArgsFacts.
Import VaArgs VaArgsScenario.

Lemma arguments_nonempty (ts : list token) : forall depth, arguments depth ts <> [].
Proof.
  induction ts as [| t r IH]; intros depth; simpl; [discriminate |].
  destruct t; try (destruct (depth =? 0); [discriminate |]);
    match goal with |- push _ ?a <> [] => destruct a; discriminate end.
Qed.

Lemma VA_ARGS_push (t : token) (args : list (list token)) :
  args <> [] -> VA_ARGS (push t args) = t :: VA_ARGS args.
Proof.
  destruct args as [| a [| b rest]]; intros H; [contradiction | reflexivity | reflexivity].
Qed.

Lemma rejoined_push (t : token) (args : list (list token)) :
  args <> [] -> rejoined (push t args) = t :: rejoined args.
Proof. destruct args as [| a rest]; intros H; [contradiction | reflexivity]. Qed.

(** Read with their commas, the arguments are the text they were split
    from. *)
Lemma VA_ARGS_arguments (ts : list token) : forall depth, VA_ARGS (arguments depth ts) = ts.
Proof.
  induction ts as [| t r IH]; intros depth; [reflexivity |].
  destruct t; simpl.
  - destruct (depth =? 0).
    + specialize (IH 0). pose proof (arguments_nonempty r 0) as N.
      destruct (arguments 0 r) as [| a rest]; [contradiction |]. simpl. now rewrite <- IH.
    + rewrite VA_ARGS_push by apply arguments_nonempty. now rewrite IH.
  - rewrite VA_ARGS_push by apply arguments_nonempty. now rewrite IH.
  - rewrite VA_ARGS_push by apply arguments_nonempty. now rewrite IH.
  - rewrite VA_ARGS_push by apply arguments_nonempty. now rewrite IH.
Qed.

Lemma rejoined_arguments (ts : list token) : forall depth,
  rejoined (arguments depth ts) = without_first_comma depth ts.
Proof.
  induction ts as [| t r IH]; intros depth; [reflexivity |].
  destruct t; simpl.
  - destruct (depth =? 0).
    + simpl. apply VA_ARGS_arguments.
    + rewrite rejoined_push by apply arguments_nonempty. now rewrite IH.
  - rewrite rejoined_push by apply arguments_nonempty. now rewrite IH.
  - rewrite rejoined_push by apply arguments_nonempty. now rewrite IH.
  - rewrite rejoined_push by apply arguments_nonempty. now rewrite IH.
Qed.

Lemma without_first_comma_length (ts : list token) : forall depth,
  length (without_first_comma depth ts) =
  length ts - (if top_level_commas depth ts =? 0 then 0 else 1).
Proof.
  induction ts as [| t r IH]; intros depth; [reflexivity |].
  destruct t; simpl.
  - destruct (depth =? 0); simpl.
    + lia.
    + rewrite IH. destruct (top_level_commas depth r =? 0) eqn:E; [lia |].
      apply Nat.eqb_neq in E. destruct r as [| t' r']; simpl in *; lia.
  - rewrite IH. destruct (top_level_commas (S depth) r =? 0) eqn:E; [lia |].
    apply Nat.eqb_neq in E. destruct r as [| t' r']; simpl in *; lia.
  - rewrite IH. destruct (top_level_commas (pred depth) r =? 0) eqn:E; [lia |].
    apply Nat.eqb_neq in E. destruct r as [| t' r']; simpl in *; lia.
  - rewrite IH. destruct (top_level_commas depth r =? 0) eqn:E; [lia |].
    apply Nat.eqb_neq in E. destruct r as [| t' r']; simpl in *; lia.
Qed.

Lemma without_first_comma_none (ts : list token) : forall depth,
  top_level_commas depth ts = 0 -> without_first_comma depth ts = ts.
Proof.
  induction ts as [| t r IH]; intros depth H; [reflexivity |].
  destruct t; simpl in *.
  - destruct (depth =? 0); [discriminate |]. now rewrite IH.
  - now rewrite IH.
  - now rewrite IH.
  - now rewrite IH.
Qed.

(** X5. The body CRESS_DEFER_BLOCK gives its lambda is the block it was
    handed, less the first comma that stands outside parentheses: the macro
    writes [block __VA_ARGS__], and the comma that parted [block] from the
    rest is not written back.  So a block comes through unchanged exactly
    when it has no comma outside parentheses, and is one token short
    otherwise. *)
Theorem block_macro_drops_first_comma (ts : list token) :
  CRESS_DEFER_BLOCK_body ts = without_first_comma 0 ts /\
  (CRESS_DEFER_BLOCK_body ts = ts <-> top_level_commas 0 ts = 0) /\
  (top_level_commas 0 ts <> 0 -> S (length (CRESS_DEFER_BLOCK_body ts)) = length ts).
Proof.
  assert (E : CRESS_DEFER_BLOCK_body ts = without_first_comma 0 ts).
  { exact (rejoined_arguments ts 0). }
  pose proof (without_first_comma_length ts 0) as L.
  split; [exact E |]. rewrite E. split.
  - split.
    + intros H. rewrite H in L.
      destruct (top_level_commas 0 ts =? 0) eqn:Z; [now apply Nat.eqb_eq |].
      apply Nat.eqb_neq in Z. destruct ts; simpl in *; [contradiction | lia].
    + apply without_first_comma_none.
  - intros H. apply Nat.eqb_neq in H. rewrite H in L.
    destruct ts as [| t r]; [discriminate H |]. simpl in L |- *. rewrite L. simpl. lia.
Qed.

Lemma block_macro_drops_first_comma_witness :
  CRESS_DEFER_BLOCK_body with_call = with_call /\
  CRESS_DEFER_BLOCK_body with_declarators = with_declarators_comma_lost /\
  S (length (CRESS_DEFER_BLOCK_body with_declarators)) = length with_declarators.
Proof.
  split; [| split].
  - apply (block_macro_drops_first_comma with_call). reflexivity.
  - reflexivity.
  - apply (block_macro_drops_first_comma with_declarators). discriminate.
Defined.

End VaArgsFacts.

(** ** When the C++17 forms exist *)

Module Cpp17Facts.
Import Stdlib.ZArith.ZArith Cpp17.
Local Open Scope Z_scope.

Lemma HAS_CPP17_true (cplusplus : intmax) (MSVC_LANG MSC_VER : option intmax) :
  DETAIL_CRESS_DEFER_HAS_CPP17 cplusplus MSVC_LANG MSC_VER = true <->
  201703 <= number cplusplus \/ (201703 <= value MSVC_LANG /\ 1913 <= value MSC_VER).
Proof.
  unfold DETAIL_CRESS_DEFER_HAS_CPP17.
  rewrite orb_true_iff, !andb_true_iff, !Z.geb_le. split.
  - intros [H | [[_ H1] H2]]; auto.
  - intros [H | [H1 H2]]; [now left | right].
    repeat split; try assumption.
    destruct MSVC_LANG as [v |]; [reflexivity | simpl in H1; lia].
Qed.

Lemma not_lowered_value (old new : option intmax) (bound : Z) :
  0 < bound -> not_lowered old new -> bound <= value old -> bound <= value new.
Proof.
  destruct old as [a |], new as [b |]; simpl; lia.
Qed.

(** X6. For macro values that fit intmax_t, in which #if computes: the C++17
    forms are defined exactly when __cplusplus is at least 201703, or
    _MSVC_LANG is at least 201703 and _MSC_VER at least 1913, where a macro
    the compiler does not define counts as 0: the test defined(_MSVC_LANG)
    changes nothing, and without _MSC_VER the second alternative fails.  So
    a compiler that raises these macros within that range, or starts to
    define them, does not lose the forms. *)
Theorem cpp17_forms_defined_iff (cplusplus : intmax) (MSVC_LANG MSC_VER : option intmax) :
  (cpp17_forms_defined cplusplus MSVC_LANG MSC_VER = true <->
   201703 <= number cplusplus \/ (201703 <= value MSVC_LANG /\ 1913 <= value MSC_VER)) /\
  (forall (cplusplus' : intmax) (MSVC_LANG' MSC_VER' : option intmax),
     number cplusplus <= number cplusplus' -> not_lowered MSVC_LANG MSVC_LANG' ->
     not_lowered MSC_VER MSC_VER' ->
     cpp17_forms_defined cplusplus MSVC_LANG MSC_VER = true ->
     cpp17_forms_defined cplusplus' MSVC_LANG' MSC_VER' = true).
Proof.
  unfold cpp17_forms_defined. split; [apply HAS_CPP17_true |].
  intros c' l' v' Hc Hl Hv H. apply HAS_CPP17_true in H. apply HAS_CPP17_true.
  destruct H as [H | [H1 H2]]; [left; lia | right]. split.
  - apply (@not_lowered_value MSVC_LANG l' 201703); [lia | exact Hl | exact H1].
  - apply (@not_lowered_value MSC_VER v' 1913); [lia | exact Hv | exact H2].
Qed.

Lemma cpp17_forms_defined_iff_witness :
  cpp17_forms_defined cplusplus_msvc (Some msvc_lang_17) (Some msc_ver_1913) = true /\
  cpp17_forms_defined cplusplus_msvc (Some msvc_lang_17) None = false /\
  cpp17_forms_defined cplusplus_msvc (Some msvc_lang_20) (Some msc_ver_1930) = true.
Proof.
  split; [reflexivity | split; [reflexivity |]].
  destruct (cpp17_forms_defined_iff cplusplus_msvc (Some msvc_lang_17) (Some msc_ver_1913))
    as [_ M].
  apply (M cplusplus_msvc (Some msvc_lang_20) (Some msc_ver_1930)); simpl; try lia.
  reflexivity.
Defined.

(** X7. On a compiler that reports the standard it compiles, and for an
    action type that can be called with no argument and moved (a lambda),
    the C++17 forms are defined exactly under the standards under which what
    they expand to is well-formed: [auto const g = ::cress::Defer(lambda)]
    initialises a variable from a prvalue guard, which before C++17 selects
    the deleted move constructor. *)
Theorem cpp17_forms_defined_where_they_compile (std : Static.standard) (A : Static.action_type) :
  Static.zero_argument_callable A = true ->
  Static.move_constructible A = true ->
  cpp17_forms_defined (cplusplus_of std) None None = Static.compiles std A cpp17_form.
Proof.
  intros Hc Hm. unfold Static.zero_argument_callable in Hc.
  unfold Static.compiles, cpp17_form, Static.well_formed, Static.converts,
    Static.callable_ctor_body_ok, Static.automatic_ok, Static.dtor_body_ok. simpl.
  rewrite Hm. destruct (Static.call A); [| discriminate].
  destruct std; reflexivity.
Qed.

Lemma cpp17_forms_defined_where_they_compile_witness :
  cpp17_forms_defined (cplusplus_of Static.Cpp14) None None =
    Static.compiles Static.Cpp14 StaticScenario.lambda cpp17_form /\
  cpp17_forms_defined (cplusplus_of Static.Cpp17) None None =
    Static.compiles Static.Cpp17 StaticScenario.lambda cpp17_form /\
  Static.compiles Static.Cpp14 StaticScenario.lambda cpp17_form = false /\
  Static.compiles Static.Cpp17 StaticScenario.lambda cpp17_form = true.
Proof.
  split; [| split; [| split; reflexivity]].
  - apply (@cpp17_forms_defined_where_they_compile Static.Cpp14 StaticScenario.lambda);
      reflexivity.
  - apply (@cpp17_forms_defined_where_they_compile Static.Cpp17 StaticScenario.lambda);
      reflexivity.
Defined.

End Cpp17Facts.
